(** * quantum-safe: the mini-STARK commitment core and its collaborators

    A shallow embedding of
      - [mini_stark.py]                  (module [MiniStark]),
      - [vuln_stark.py]                  (module [VulnStark]),
      - [attack_vuln_stark.py]           (module [Attack]),
      - [pqzk_poc/mini_stark_qsafe.py]   (module [QSafe]),
      - [pqzk_poc/legacy_rsa_toy.py]     (module [LegacyRsa]),
      - [pqzk_poc/bridge_sim.py]         (module [Bridge]),
    followed by the properties proved about them.

    Python integers are [Z], Python [str] values are [string], lists are
    [list]; an exception is a [Raise] outcome of the [result] type. *)

From Equations Require Import Equations.
From Equations.Prop Require Import Logic.
From Stdlib Require Import ZArith Zpow_facts String Ascii.
From stdpp Require Import base tactics option list numbers strings pretty.

Local Open Scope Z_scope.

(** ** Python runtime: exceptions, indexing, ranges *)

Inductive exn := IndexError | ValueError | TypeError.

Inductive result (A : Type) :=
| Ok (a : A)
| Raise (e : exn).
Arguments Ok {A} a.
Arguments Raise {A} e.

#[global] Instance result_ret : MRet result := fun A a => Ok a.
#[global] Instance result_bind : MBind result := fun A B f m =>
  match m with
  | Ok a => f a
  | Raise e => Raise e
  end.
#[global] Instance result_fmap : FMap result := fun A B f m =>
  match m with
  | Ok a => Ok (f a)
  | Raise e => Raise e
  end.

Definition is_ok {A} (r : result A) : Prop :=
  match r with Ok _ => True | Raise _ => False end.

(** [norm_index n i]: the position a Python sequence of length [n] reads
    for the subscript [i] (negative subscripts count from the end). *)
Definition norm_index (n : nat) (i : Z) : result nat :=
  let j := if i <? 0 then i + Z.of_nat n else i in
  if (0 <=? j) && (j <? Z.of_nat n) then Ok (Z.to_nat j) else Raise IndexError.

(** [l[i]] *)
Definition py_index {A} (l : list A) (i : Z) : result A :=
  j ← norm_index (length l) i;
  match l !! j with
  | Some x => Ok x
  | None => Raise IndexError
  end.

(** [l[i] = x] *)
Definition py_setitem {A} (l : list A) (i : Z) (x : A) : result (list A) :=
  j ← norm_index (length l) i;
  Ok (<[j:=x]> l).

(** [range(lo, hi)] *)
Definition py_range (lo hi : Z) : list Z := seqZ lo (hi - lo).

(** [for x in xs: s = body(s, x)] *)
Fixpoint for_in {A S} (xs : list A) (body : S → A → result S) (s : S)
  : result S :=
  match xs with
  | [] => Ok s
  | x :: xs' => s' ← body s x; for_in xs' body s'
  end.

(** [[f(x) for x in xs]] *)
Fixpoint comprehension {A B} (f : A → result B) (xs : list A)
  : result (list B) :=
  match xs with
  | [] => Ok []
  | x :: xs' => y ← f x; ys ← comprehension f xs'; Ok (y :: ys)
  end.

(** [range(lo, hi, step)] for a positive [step] *)
Definition py_range_step (lo hi step : Z) : list Z :=
  (λ k, lo + step * k) <$> seqZ 0 ((hi - lo + step - 1) `div` step).

(** ** [random.sample(population, k)]

    The sampler belongs to Python's standard library.  It is modelled by
    the library's pool algorithm,
<<
      n = len(population)
      if not 0 <= k <= n: raise ValueError(...)
      pool = list(population)
      for i in range(k):
          j = randbelow(n - i)
          result[i] = pool[j]
          pool[j] = pool[n - i - 1]
>>
    with the generator made explicit: [rnd i] is the raw value behind the
    [i]-th call of [randbelow], which reduces it below its argument.  (For
    large populations the library tracks the chosen positions in a set
    instead of copying the pool; the contract is the same: [k] entries at
    pairwise distinct positions, or [ValueError].) *)
Section RandomSample.
Context {A : Type}.
Variable rnd : nat → nat.

Definition randbelow (i : Z) (m : Z) : Z :=
  Z.of_nat (rnd (Z.to_nat i)) `mod` m.

Fixpoint sample_pool (pool : list A) (n i : Z) (todo : nat)
  : result (list A) :=
  match todo with
  | O => Ok []
  | S todo' =>
      let j := randbelow i (n - i) in
      x ← py_index pool j;
      y ← py_index pool (n - i - 1);
      pool' ← py_setitem pool j y;
      rest ← sample_pool pool' n (i + 1) todo';
      Ok (x :: rest)
  end.

Definition random_sample (population : list A) (k : Z) : result (list A) :=
  let n := Z.of_nat (length population) in
  if negb ((0 <=? k) && (k <=? n)) then Raise ValueError
  else sample_pool population n 0 (Z.to_nat k).
End RandomSample.

(** The arguments the hash functions receive: trace integers at the
    leaves, concatenated digests above them. *)
Inductive pyval :=
| PyInt (z : Z)
| PyStr (s : string).

(** [str(x)]: integers print in decimal, a string is itself. *)
Definition py_str (x : pyval) : string :=
  match x with
  | PyInt z => pretty z
  | PyStr s => s
  end.

(** ** One level of the Merkle fold

    The body of the [while len(L) > 1] loop is the same two statements in
    [vuln_stark.commit_trace], [attack_vuln_stark.build_merkle_from_leaves]
    and [mini_stark_qsafe.merkle_root_from_leaves]. *)
Section MerkleLevel.
Variable hash_func : pyval → string.

(** [if len(L) % 2 != 0: L.append(L[-1])] *)
Definition pad_odd (L : list string) : result (list string) :=
  if negb (Z.of_nat (length L) `mod` 2 =? 0)
  then x ← py_index L (-1); Ok (L ++ [x])
  else Ok L.

(** [[hash_func(L[i] + L[i+1]) for i in range(0, len(L), 2)]] *)
Definition pair_level (L : list string) : result (list string) :=
  comprehension
    (λ i, a ← py_index L i;
          b ← py_index L (i + 1);
          Ok (hash_func (PyStr (a +:+ b))))
    (py_range_step 0 (Z.of_nat (length L)) 2).

Definition fold_level (L : list string) : result (list string) :=
  L1 ← pad_odd L; pair_level L1.

(** The same comprehension by structural recursion, two nodes at a time;
    a node left without a partner is the [L[i+1]] that raises. *)
Fixpoint pairs (L : list string) : result (list string) :=
  match L with
  | [] => Ok []
  | [_] => Raise IndexError
  | a :: b :: L' => rest ← pairs L'; Ok (hash_func (PyStr (a +:+ b)) :: rest)
  end.
End MerkleLevel.

Example py_str_55 : py_str (PyInt 55) = "55"%string.
Proof. reflexivity. Qed.
Example py_str_neg : py_str (PyInt (-7)) = "-7"%string.
Proof. reflexivity. Qed.
Example py_index_last : py_index [1; 2; 3] (-1) = Ok 3.
Proof. reflexivity. Qed.
Example py_index_oob : py_index [1; 2; 3] 3 = Raise IndexError.
Proof. reflexivity. Qed.
Example py_range_2_5 : py_range 2 5 = [2; 3; 4].
Proof. reflexivity. Qed.
Example py_range_empty : py_range 2 1 = [].
Proof. reflexivity. Qed.
Example py_range_step_5 : py_range_step 0 5 2 = [0; 2; 4].
Proof. reflexivity. Qed.
Example pair_level_3 :
  pair_level py_str ["a"; "b"; "c"]%string = Raise IndexError.
Proof. reflexivity. Qed.
Example fold_level_3 :
  fold_level py_str ["a"; "b"; "c"]%string = Ok ["ab"; "cc"]%string.
Proof. reflexivity. Qed.

(** *** Facts about the runtime used to justify the loops *)

Lemma list_ind2 {A} (P : list A → Prop) :
  P [] → (∀ a, P [a]) → (∀ a b l, P l → P (a :: b :: l)) → ∀ l, P l.
Proof.
  intros Hnil Hone Hstep l.
  assert (P l ∧ ∀ a, P (a :: l)) as [H _]; [|exact H].
  induction l as [|x l [IH1 IH2]]; split; auto.
Qed.

Lemma norm_index_nonneg n i :
  0 ≤ i → i < Z.of_nat n → norm_index n i = Ok (Z.to_nat i).
Proof.
  intros H0 Hn. unfold norm_index.
  destruct (Z.ltb_spec i 0); [lia|].
  destruct (Z.leb_spec 0 i); [|lia].
  destruct (Z.ltb_spec i (Z.of_nat n)); [done|lia].
Qed.

Lemma norm_index_neg n i :
  - Z.of_nat n ≤ i → i < 0 → norm_index n i = Ok (Z.to_nat (i + Z.of_nat n)).
Proof.
  intros H0 Hn. unfold norm_index.
  destruct (Z.ltb_spec i 0); [|lia].
  destruct (Z.leb_spec 0 (i + Z.of_nat n)); [|lia].
  destruct (Z.ltb_spec (i + Z.of_nat n) (Z.of_nat n)); [done|lia].
Qed.

Lemma norm_index_high n i : Z.of_nat n ≤ i → norm_index n i = Raise IndexError.
Proof.
  intros H. unfold norm_index.
  destruct (Z.ltb_spec i 0); [lia|].
  destruct (Z.ltb_spec i (Z.of_nat n)); [lia|].
  by rewrite andb_false_r.
Qed.

Lemma norm_index_low n i : i < - Z.of_nat n → norm_index n i = Raise IndexError.
Proof.
  intros H. unfold norm_index.
  destruct (Z.ltb_spec i 0); [|lia].
  destruct (Z.leb_spec 0 (i + Z.of_nat n)); [lia|done].
Qed.

Lemma py_index_nonneg {A} (l : list A) (i : nat) x :
  l !! i = Some x → py_index l (Z.of_nat i) = Ok x.
Proof.
  intros H. unfold py_index.
  rewrite norm_index_nonneg; [|lia|apply lookup_lt_Some in H; lia].
  cbn. by rewrite Nat2Z.id, H.
Qed.

Lemma py_index_lookup {A} (l : list A) (i : Z) x :
  0 ≤ i → l !! Z.to_nat i = Some x → py_index l i = Ok x.
Proof.
  intros Hi H. rewrite <- (Z2Nat.id i) by done. by apply py_index_nonneg.
Qed.

Lemma py_index_high {A} (l : list A) i :
  Z.of_nat (length l) ≤ i → py_index l i = Raise IndexError.
Proof. intros H. unfold py_index. by rewrite norm_index_high. Qed.

Lemma py_index_low {A} (l : list A) i :
  i < - Z.of_nat (length l) → py_index l i = Raise IndexError.
Proof. intros H. unfold py_index. by rewrite norm_index_low. Qed.

Lemma py_index_nil {A} i : py_index (@nil A) i = Raise IndexError.
Proof.
  destruct (Z.lt_ge_cases i 0);
    [apply py_index_low|apply py_index_high]; cbn; lia.
Qed.

Lemma py_index_from_end {A} (l : list A) (k : nat) x :
  (k < length l)%nat → l !! (length l - S k)%nat = Some x →
  py_index l (- Z.of_nat (S k)) = Ok x.
Proof.
  intros Hk H. unfold py_index.
  rewrite norm_index_neg by lia. cbn.
  replace (Z.to_nat (- Z.of_nat (S k) + Z.of_nat (length l)))
    with (length l - S k)%nat by lia.
  by rewrite H.
Qed.

Lemma py_index_last_snoc {A} (l : list A) x : py_index (l ++ [x]) (-1) = Ok x.
Proof.
  apply (py_index_from_end _ 0); rewrite length_app; cbn; [lia|].
  replace (length l + 1 - 1)%nat with (length l + 0)%nat by lia.
  by rewrite lookup_app_r, Nat.add_0_r, Nat.sub_diag by lia.
Qed.

Lemma py_index_is_ok {A} (l : list A) i :
  - Z.of_nat (length l) ≤ i < Z.of_nat (length l) → is_ok (py_index l i).
Proof.
  intros [Hlo Hhi]. unfold py_index.
  destruct (Z.ltb_spec i 0).
  - rewrite norm_index_neg by lia. cbn.
    destruct (lookup_lt_is_Some_2 l (Z.to_nat (i + Z.of_nat (length l))))
      as [x ->]; [lia|done].
  - rewrite norm_index_nonneg by lia. cbn.
    destruct (lookup_lt_is_Some_2 l (Z.to_nat i)) as [x ->]; [lia|done].
Qed.

Lemma py_index_cons_succ {A} (a : A) l i :
  0 ≤ i → py_index (a :: l) (i + 1) = py_index l i.
Proof.
  intros Hi. unfold py_index. cbn [length].
  destruct (Z.ltb_spec i (Z.of_nat (length l))).
  - rewrite !norm_index_nonneg by lia. cbn.
    replace (Z.to_nat (i + 1)) with (S (Z.to_nat i)) by lia. done.
  - by rewrite !norm_index_high by lia.
Qed.

Lemma py_index_exn {A} (l : list A) i e :
  py_index l i = Raise e → e = IndexError.
Proof.
  unfold py_index, norm_index. intros H.
  destruct (_ && _); cbn in H; [|congruence].
  destruct (l !! _); congruence.
Qed.

Lemma py_index_cons_0 {A} (a : A) l : py_index (a :: l) 0 = Ok a.
Proof. apply (py_index_nonneg (a :: l) 0). done. Qed.

Lemma comprehension_ext {A B} (f g : A → result B) xs :
  Forall (λ x, f x = g x) xs → comprehension f xs = comprehension g xs.
Proof. induction 1 as [|x xs Hx _ IH]; cbn; [done|]. by rewrite Hx, IH. Qed.

Lemma comprehension_fmap {A B C} (f : B → result C) (g : A → B) xs :
  comprehension f (g <$> xs) = comprehension (f ∘ g) xs.
Proof. induction xs as [|x xs IH]; cbn; [done|]. by rewrite IH. Qed.

Lemma py_range_step_two (n : nat) :
  py_range_step 0 (Z.of_nat (S (S n))) 2
  = 0 :: ((λ i, i + 2) <$> py_range_step 0 (Z.of_nat n) 2).
Proof.
  unfold py_range_step.
  replace ((Z.of_nat (S (S n)) - 0 + 2 - 1) `div` 2)
    with (Z.succ ((Z.of_nat n - 0 + 2 - 1) `div` 2)).
  2:{ replace (Z.of_nat (S (S n)) - 0 + 2 - 1)
        with ((Z.of_nat n - 0 + 2 - 1) + 1 * 2) by lia.
      rewrite Z.div_add by lia. lia. }
  rewrite seqZ_cons by (pose proof (Z.div_pos (Z.of_nat n - 0 + 2 - 1) 2); lia).
  rewrite Z.pred_succ. cbn [fmap list_fmap]. f_equal.
  rewrite <- (fmap_add_seqZ 1 0), <- !list_fmap_compose.
  apply list_fmap_ext. intros _ k _. cbn. lia.
Qed.

Section MerkleLevelFacts.
Variable hash_func : pyval → string.

Lemma pair_level_pairs L : pair_level hash_func L = pairs hash_func L.
Proof.
  induction L as [|a|a b L IH] using list_ind2; [done..|].
  unfold pair_level. cbn [length]. rewrite py_range_step_two.
  cbn [comprehension pairs]. rewrite <- IH. unfold pair_level.
  rewrite py_index_cons_0, (py_index_cons_succ a (b :: L) 0) by lia.
  rewrite py_index_cons_0, comprehension_fmap. cbn.
  rewrite (comprehension_ext _
    (λ i, x ← py_index L i; y ← py_index L (i + 1);
          Ok (hash_func (PyStr (x +:+ y))))); [done|].
  apply Forall_forall. intros i Hi. cbn.
  assert (0 ≤ i) as Hi0.
  { unfold py_range_step in Hi. apply list_elem_of_fmap in Hi as (k & -> & Hk).
    apply elem_of_seqZ in Hk. lia. }
  replace (i + 2 + 1) with ((i + 1 + 1) + 1) by lia.
  replace (i + 2) with ((i + 1) + 1) by lia.
  by rewrite !py_index_cons_succ by lia.
Qed.

Lemma pairs_length L L' :
  pairs hash_func L = Ok L' → length L = (2 * length L')%nat.
Proof.
  revert L'. induction L as [|a|a b L IH] using list_ind2; intros L' H.
  - by simplify_eq/=.
  - done.
  - cbn in H. destruct (pairs hash_func L) as [r|]; [|done].
    simplify_eq/=. rewrite (IH r eq_refl). lia.
Qed.

Lemma pairs_even L :
  Nat.Even (length L) → ∃ L', pairs hash_func L = Ok L'.
Proof.
  induction L as [|a|a b L IH] using list_ind2; intros Hev.
  - by eexists.
  - destruct Hev as [k Hk]. cbn in Hk. lia.
  - destruct IH as [r Hr].
    { destruct Hev as [k Hk]. exists (k - 1)%nat. cbn in Hk. lia. }
    cbn. rewrite Hr. by eexists.
Qed.

Lemma pad_odd_length L L1 :
  pad_odd L = Ok L1 →
  Nat.Even (length L1) ∧ (length L ≤ length L1 ≤ S (length L))%nat.
Proof.
  unfold pad_odd. intros H.
  destruct (Z.eqb_spec (Z.of_nat (length L) `mod` 2) 0) as [Hm|Hm]; cbn in H.
  - simplify_eq. split; [|lia].
    exists (Z.to_nat (Z.of_nat (length L1) `div` 2)).
    pose proof (Z.div_mod (Z.of_nat (length L1)) 2). lia.
  - destruct (py_index L (-1)) as [x|]; [|done]. simplify_eq/=.
    rewrite length_app. cbn. split; [|lia].
    exists (Z.to_nat (Z.of_nat (length L) `div` 2 + 1)).
    pose proof (Z.div_mod (Z.of_nat (length L)) 2).
    pose proof (Z.mod_pos_bound (Z.of_nat (length L)) 2). lia.
Qed.

(** Each pass over a level of two or more nodes yields a shorter level:
    the [while] loops below terminate. *)
Lemma fold_level_shrinks L L' :
  fold_level hash_func L = Ok L' → (1 < length L)%nat →
  (0 < length L' < length L)%nat.
Proof.
  unfold fold_level. intros H Hlen.
  destruct (pad_odd L) as [L1|] eqn:Hpad; [|done]. cbn in H.
  rewrite pair_level_pairs in H.
  apply pad_odd_length in Hpad as [_ Hl]. apply pairs_length in H. lia.
Qed.

Lemma fold_level_ok L : L ≠ [] → ∃ L', fold_level hash_func L = Ok L'.
Proof.
  intros Hne. unfold fold_level.
  assert (∃ L1, pad_odd L = Ok L1) as [L1 HL1].
  { unfold pad_odd. destruct (negb _); [|by eexists].
    destruct (py_index L (-1)) as [x|e] eqn:Hx; [by eexists|].
    exfalso. pose proof (py_index_is_ok L (-1)) as Hok.
    rewrite Hx in Hok. apply Hok. destruct L; [done|]. cbn [length]. lia. }
  rewrite HL1. cbn. rewrite pair_level_pairs.
  apply pairs_even. by apply pad_odd_length in HL1 as [? _].
Qed.
End MerkleLevelFacts.

(** ** mini_stark.py *)
Module MiniStark.
Definition gen_fib_trace (n : Z) : result (list Z) :=
  for_in (py_range 2 n)
         (λ trace _, a ← py_index trace (-1);
                     b ← py_index trace (-2);
                     Ok (trace ++ [a + b]))
         [1; 1].

(** [random.sample(range(n-2), k)] *)
Definition random_challenges (rnd : nat → nat) (n : Z) (k : Z)
  : result (list Z) :=
  random_sample rnd (py_range 0 (n - 2)) k.

Definition prove (trace : list Z) (indices : list Z)
  : result (list (Z * Z * Z)) :=
  for_in indices
         (λ proof i, a ← py_index trace i;
                     b ← py_index trace (i + 1);
                     let lhs := a + b in
                     rhs ← py_index trace (i + 2);
                     Ok (proof ++ [(i, lhs, rhs)]))
         [].

Fixpoint verify (proof : list (Z * Z * Z)) : bool :=
  match proof with
  | [] => true
  | (i, lhs, rhs) :: proof' =>
      if negb (lhs =? rhs) then false else verify proof'
  end.

Section WithHash.
Variable sha3_512_hexdigest : string → string.

(** [hashlib.sha3_512(str(x).encode()).hexdigest()] *)
Definition hash512 (x : pyval) : string := sha3_512_hexdigest (py_str x).

Variable hash_func : pyval → string.

(** The [while] loop of [commit_trace] and its [return leaves[0]]. *)
Equations? commit_while (leaves : list string)
  : result string by wf (length leaves) lt :=
  commit_while leaves with inspect (bool_decide (1 < length leaves)%nat) := {
    | exist _ false _ := py_index leaves 0;
    | exist _ true Hgt with inspect (fold_level hash_func leaves) := {
        | exist _ (Ok leaves') Hstep := commit_while leaves';
        | exist _ (Raise e) _ := Raise e } }.
Proof.
  apply bool_decide_eq_true in Hgt.
  by apply (fold_level_shrinks hash_func) in Hstep as [_ ?].
Qed.

Definition commit_trace (trace : list Z) : result string :=
  commit_while ((λ v, hash_func (PyInt v)) <$> trace).
End WithHash.
End MiniStark.

(** ** vuln_stark.py *)
Module VulnStark.
Section WithHash.
Variable sha3_512_hexdigest : string → string.

(** [h = hashlib.sha3_512(str(x).encode()).hexdigest(); return h[:4]] *)
Definition hash_trunc16 (x : pyval) : string :=
  substring 0 4 (sha3_512_hexdigest (py_str x)).

Definition gen_fib_trace (n : Z) : result (list Z) :=
  for_in (py_range 2 n)
         (λ trace _, a ← py_index trace (-1);
                     b ← py_index trace (-2);
                     Ok (trace ++ [a + b]))
         [1; 1].

Variable hash_func : pyval → string.

(** The [while] loop of [commit_trace] together with its [return]:
    the variable [leaves] is the current level, and the function returns
    [leaves[0], leaves] once the loop is left. *)
Equations? commit_while (leaves : list string)
  : result (string * list string) by wf (length leaves) lt :=
  commit_while leaves with inspect (bool_decide (1 < length leaves)%nat) := {
    | exist _ false _ := root ← py_index leaves 0; Ok (root, leaves);
    | exist _ true Hgt with inspect (fold_level hash_func leaves) := {
        | exist _ (Ok leaves') Hstep := commit_while leaves';
        | exist _ (Raise e) _ := Raise e } }.
Proof.
  apply bool_decide_eq_true in Hgt.
  by apply (fold_level_shrinks hash_func) in Hstep as [_ ?].
Qed.

Definition commit_trace (trace : list Z) : result (string * list string) :=
  commit_while ((λ v, hash_func (PyInt v)) <$> trace).
End WithHash.
End VulnStark.

(** ** attack_vuln_stark.py *)
Module Attack.
Section WithHash.
Variable sha3_512_hexdigest : string → string.
Abbreviation hash_trunc16 := (VulnStark.hash_trunc16 sha3_512_hexdigest).

Section Build.
Variable hash_func : pyval → string.

(** [L = list(leaves)] copies its argument; the loop then runs on [L]. *)
Equations? build_merkle_from_leaves (L : list string)
  : result string by wf (length L) lt :=
  build_merkle_from_leaves L with inspect (bool_decide (1 < length L)%nat) := {
    | exist _ false _ := py_index L 0;
    | exist _ true Hgt with inspect (fold_level hash_func L) := {
        | exist _ (Ok L') Hstep := build_merkle_from_leaves L';
        | exist _ (Raise e) _ := Raise e } }.
Proof.
  apply bool_decide_eq_true in Hgt.
  by apply (fold_level_shrinks hash_func) in Hstep as [_ ?].
Qed.
End Build.

Definition recompute_root_with_new_leaf
    (trace : list Z) (leaf_index : Z) (new_value : pyval)
  : result (string * list string) :=
  let leaves := (λ v, hash_trunc16 (PyInt v)) <$> trace in
  leaves ← py_setitem leaves leaf_index (hash_trunc16 new_value);
  root ← build_merkle_from_leaves hash_trunc16 leaves;
  Ok (root, leaves).

(** The brute-force loop of the script,
<<
      for cand in range(0, max_try):
          new_root, _ = recompute_root_with_new_leaf(trace, idx, cand)
          if new_root == orig_root:
              found = cand; ...; break
>>
    run over the candidates still to try; the result is [found]. *)
Fixpoint search_loop (trace : list Z) (idx : Z) (orig_root : string)
    (cands : list Z) : result (option Z) :=
  match cands with
  | [] => Ok None
  | cand :: cands' =>
      '(new_root, _) ← recompute_root_with_new_leaf trace idx (PyInt cand);
      if String.eqb new_root orig_root then Ok (Some cand)
      else search_loop trace idx orig_root cands'
  end.

(** [not found], for [found] either [None] or an integer: the test under
    which the script prints "No collision found". *)
Definition py_not (found : option Z) : bool :=
  match found with
  | None => true
  | Some c => c =? 0
  end.

(** The script from [orig_root, _ = commit_trace(trace)] on, with its
    constants [idx] and [max_try] as arguments.  The result is [found] and
    whether "No collision found" is printed. *)
Definition attack (trace : list Z) (idx : Z) (max_try : Z)
  : result (option Z * bool) :=
  '(orig_root, _) ← VulnStark.commit_trace hash_trunc16 trace;
  found ← search_loop trace idx orig_root (py_range 0 max_try);
  Ok (found, py_not found).

(** [N = 10], [idx = 3], [max_try = 200000] *)
Definition main : result (option Z * bool) :=
  trace ← VulnStark.gen_fib_trace 10;
  attack trace 3 200000.
End WithHash.
End Attack.

(** ** pqzk_poc/mini_stark_qsafe.py *)
Module QSafe.
Section WithHash.
Variable sha3_512_hexdigest : string → string.

Definition gen_fib_trace (n : Z) : result (list Z) :=
  for_in (py_range 2 n)
         (λ trace _, a ← py_index trace (-1);
                     b ← py_index trace (-2);
                     Ok (trace ++ [a + b]))
         [1; 1].

(** [hashlib.sha3_512(str(x).encode()).hexdigest()] *)
Definition hash512 (x : pyval) : string := sha3_512_hexdigest (py_str x).

Equations? merkle_root_from_leaves (L : list string)
  : result string by wf (length L) lt :=
  merkle_root_from_leaves L with inspect (bool_decide (1 < length L)%nat) := {
    | exist _ false _ := py_index L 0;
    | exist _ true Hgt with inspect (fold_level hash512 L) := {
        | exist _ (Ok L') Hstep := merkle_root_from_leaves L';
        | exist _ (Raise e) _ := Raise e } }.
Proof.
  apply bool_decide_eq_true in Hgt.
  by apply (fold_level_shrinks hash512) in Hstep as [_ ?].
Qed.

Definition commit_trace (trace : list Z) : result (string * list string) :=
  let leaves := (λ v, hash512 (PyInt v)) <$> trace in
  root ← merkle_root_from_leaves leaves;
  Ok (root, leaves).

Definition random_challenges (rnd : nat → nat) (n : Z) (k : Z)
  : result (list Z) :=
  random_sample rnd (py_range 0 (n - 2)) k.

Definition prove_trace (trace : list Z) (indices : list Z)
  : result (list (Z * Z * Z)) :=
  for_in indices
         (λ proof i, a ← py_index trace i;
                     b ← py_index trace (i + 1);
                     let lhs := a + b in
                     rhs ← py_index trace (i + 2);
                     Ok (proof ++ [(i, lhs, rhs)]))
         [].

Fixpoint verify_proof (proof : list (Z * Z * Z)) : bool :=
  match proof with
  | [] => true
  | (i, lhs, rhs) :: proof' =>
      if negb (lhs =? rhs) then false else verify_proof proof'
  end.
End WithHash.
End QSafe.

(** ** pqzk_poc/legacy_rsa_toy.py *)
Module LegacyRsa.
Definition p : Z := 3.
Definition q : Z := 5.
Definition N : Z := p * q.
Definition phi : Z := (p - 1) * (q - 1).
Definition e : Z := 3.

(** [Crypto.Util.number.inverse(u, v)]: the inverse of [u] modulo [v],
    found here by trying the residues in turn. *)
Definition inverse (u v : Z) : Z :=
  default 0 (head (filter (λ x, (u * x) `mod` v = 1) (seqZ 0 v))).

Definition d : Z := inverse e phi.

(** [pow(m, d, N)] *)
Definition rsa_sign (m : Z) : Z := (m ^ d) `mod` N.

(** [pow(s, e, N) == (m % N)] *)
Definition rsa_verify (m s : Z) : bool := (s ^ e) `mod` N =? m `mod` N.
End LegacyRsa.

(** ** pqzk_poc/bridge_sim.py *)
Module Bridge.
(** What a caller hands over as [signer_blob]: an integer (the toy RSA
    signature), a byte string, an [oqs.Signature] object, or a tuple of
    those. *)
Inductive atom :=
| AInt (z : Z)
| ABytes (b : list Z)
| ASignature (handle : nat).

Inductive pyobj :=
| Atom (a : atom)
| Tuple (items : list atom).

(** [x, y = blob]: the right-hand side must be an iterable of exactly two
    items; a byte string iterates over its bytes. *)
Definition unpack2 (blob : pyobj) : result (atom * atom) :=
  match blob with
  | Tuple [x; y] => Ok (x, y)
  | Tuple _ => Raise ValueError
  | Atom (ABytes [x; y]) => Ok (AInt x, AInt y)
  | Atom (ABytes _) => Raise ValueError
  | Atom (AInt _) => Raise TypeError
  | Atom (ASignature _) => Raise TypeError
  end.

Definition hex_digit (c : ascii) : option Z :=
  let n := Z.of_nat (nat_of_ascii c) in
  if (48 <=? n) && (n <=? 57) then Some (n - 48)
  else if (97 <=? n) && (n <=? 102) then Some (n - 87)
  else if (65 <=? n) && (n <=? 70) then Some (n - 55)
  else None.

Fixpoint int16_digits (acc : Z) (s : string) : result Z :=
  match s with
  | EmptyString => Ok acc
  | String c s' =>
      match hex_digit c with
      | Some v => int16_digits (16 * acc + v) s'
      | None => Raise ValueError
      end
  end.

(** [int(h, 16)] on a string of hexadecimal digits, the form a
    [hexdigest()] has. *)
Definition py_int16 (h : string) : result Z :=
  match h with
  | EmptyString => Raise ValueError
  | _ => int16_digits 0 h
  end.

Section WithHash.
Variable sha256_hexdigest : string → string.

Definition legacy_sign_commit (root_str : string) : result Z :=
  let h := sha256_hexdigest root_str in
  v ← py_int16 h;
  let m := v `mod` LegacyRsa.N in
  Ok (LegacyRsa.rsa_sign m).

(** [rsa.rsa_verify(m, signature)] computes [pow(signature, e, N)], which
    wants an integer. *)
Definition legacy_verify_commit (root_str : string) (signature : pyobj)
  : result bool :=
  let h := sha256_hexdigest root_str in
  v ← py_int16 h;
  let m := v `mod` LegacyRsa.N in
  match signature with
  | Atom (AInt s) => Ok (LegacyRsa.rsa_verify m s)
  | _ => Raise TypeError
  end.

Definition chainB_verify (root_str : string) (proof : list (Z * Z * Z))
    (signer_mode : string) (signer_blob : pyobj) : result bool :=
  let ok_proof := QSafe.verify_proof proof in
  if negb ok_proof then Ok false
  else if String.eqb signer_mode "legacy" then
    let sig := signer_blob in
    ok_sig ← legacy_verify_commit root_str sig;
    Ok ok_sig
  else if String.eqb signer_mode "pq" then
    '(sig_impl, pk) ← unpack2 signer_blob;
    let sig_impl_obj := sig_impl in
    let pk_obj := pk in
    Ok true
  else Ok false.

(** [payload = {"from": "AliceA", "to": "BobB", "amount": 10}] *)
Record payload := { p_from : string; p_to : string; p_amount : Z }.

Definition chainA_create_event : payload :=
  {| p_from := "AliceA"; p_to := "BobB"; p_amount := 10 |}.

Variable sha3_512_hexdigest : string → string.

(** [stark] is [mini_stark_qsafe]; [rnd] is the state of the generator
    that [random_challenges] draws from. *)
Definition relay_build_proof (rnd : nat → nat) (pl : payload)
  : result (string * list (Z * Z * Z)) :=
  trace ← QSafe.gen_fib_trace 12;
  '(root, leaves) ← QSafe.commit_trace sha3_512_hexdigest trace;
  idx ← QSafe.random_challenges rnd (Z.of_nat (length trace)) 4;
  proof ← QSafe.prove_trace trace idx;
  Ok (root, proof).

(** [{'root': root, 'proof': proof, 'sig': sig}] *)
Record legacy_state :=
  { st_root : string; st_proof : list (Z * Z * Z); st_sig : Z }.

(** [demo_legacy_flow()]: the returned pair holds the value of [ok], which
    the function prints, and the state it returns. *)
Definition demo_legacy_flow (rnd : nat → nat) : result (bool * legacy_state) :=
  let pl := chainA_create_event in
  '(root, proof) ← relay_build_proof rnd pl;
  sig ← legacy_sign_commit root;
  ok ← chainB_verify root proof "legacy" (Atom (AInt sig));
  Ok (ok, {| st_root := root; st_proof := proof; st_sig := sig |}).

(** [pow(a, -1, m)]: the inverse of [a] modulo [m], with the sign of [m];
    [ValueError] when [m] is 0 or [a] has no inverse.  The built-in is
    modelled by trying the residues in turn. *)
Definition py_pow_inv (a m : Z) : result Z :=
  if m =? 0 then Raise ValueError
  else
    let residues := if 0 <? m then seqZ 0 m else seqZ (m + 1) (- m) in
    match filter (λ x, (a * x) `mod` m = 1 `mod` m) residues with
    | x :: _ => Ok x
    | [] => Raise ValueError
    end.

(** [pow(base, exp, modulus)] on integers *)
Definition py_pow (base exp modulus : Z) : result Z :=
  if modulus =? 0 then Raise ValueError
  else if 0 <=? exp then Ok (base ^ exp `mod` modulus)
  else inv ← py_pow_inv base modulus; Ok (inv ^ (- exp) `mod` modulus).

(** The local function [extended_gcd] of [attack_legacy_with_shor]. *)
Equations? extended_gcd (a b : Z) : Z * Z * Z by wf (Z.abs_nat a) lt :=
  extended_gcd a b with inspect (a =? 0) := {
    | exist _ true _ := (b, 0, 1);
    | exist _ false Ha :=
        let '(gcd, x1, y1) := extended_gcd (b `mod` a) a in
        let x := y1 - (b `div` a) * x1 in
        let y := x1 in
        (gcd, x, y) }.
Proof.
  apply Z.eqb_neq in Ha.
  destruct (Z.lt_ge_cases 0 a).
  - pose proof (Z.mod_pos_bound b a). lia.
  - pose proof (Z.mod_neg_bound b a). lia.
Qed.

(** [attack_legacy_with_shor(state)].  [factors] is the value of
    [res.factors] for [res = shor_demo.factor_N(N)], which is found with
    floating-point roots and random draws and is taken as given here.
    [None] for [d] stands for the [return False] of the fallback; in the
    fallback [phi] is not 0 where [%] is applied, since [gcd_val] is 3 for
    [phi = 0]. *)
Definition attack_legacy_with_shor (factors : list Z) (state : legacy_state)
  : result bool :=
  let N := LegacyRsa.N in
  if bool_decide (factors = []) || (Z.of_nat (length factors) <? 2)
  then Ok false
  else
    p ← py_index factors 0;
    q ← py_index factors 1;
    let phi := (p - 1) * (q - 1) in
    let e := LegacyRsa.e in
    d ← match py_pow_inv e phi with
        | Ok d => Ok (Some d)
        | Raise ValueError =>
            let '(gcd_val, x, y) := extended_gcd e phi in
            if negb (gcd_val =? 1) then Ok None
            else Ok (Some ((x `mod` phi + phi) `mod` phi))
        | Raise ex => Raise ex
        end;
    match d with
    | None => Ok false
    | Some d =>
        let h := sha256_hexdigest (st_root state) in
        v ← py_int16 h;
        let m := v `mod` N in
        forged_sig ← py_pow m d N;
        let ok := LegacyRsa.rsa_verify m forged_sig in
        ok_on_chain ← chainB_verify (st_root state) (st_proof state) "legacy"
                        (Atom (AInt forged_sig));
        Ok ok_on_chain
    end.
End WithHash.

(** A non-empty string of hexadecimal digits, as [hexdigest()] returns. *)
Fixpoint all_hex (s : string) : bool :=
  match s with
  | EmptyString => true
  | String c s' => bool_decide (is_Some (hex_digit c)) && all_hex s'
  end.

Definition hexdigest_like (s : string) : bool :=
  match s with
  | EmptyString => false
  | _ => all_hex s
  end.
End Bridge.

(** ** pqzk_poc/shor_demo.py (its integer helpers, which [shor_demo.py]
    repeats word for word) *)
Module ShorDemo.
(** The helpers raise nothing but [ZeroDivisionError]. *)
Inductive arith (A : Type) :=
| Val (a : A)
| ZeroDivisionError.
Arguments Val {A} a.
Arguments ZeroDivisionError {A}.

(** [while b: a, b = b, a % b] and [return a]; an integer is true when it
    is not zero, and [%] takes the sign of the divisor, as [Z.modulo]. *)
Equations? gcd (a b : Z) : Z by wf (Z.abs_nat b) lt :=
  gcd a b with inspect (b =? 0) := {
    | exist _ true _ := a;
    | exist _ false Hb := gcd b (a `mod` b) }.
Proof.
  apply Z.eqb_neq in Hb.
  destruct (Z.lt_ge_cases 0 b).
  - pose proof (Z.mod_pos_bound a b). lia.
  - pose proof (Z.mod_neg_bound a b). lia.
Qed.

(** The loop of [mod_exp] on the variables [result], [base] and [exp];
    [mod] is not zero here, or the statement before the loop has raised. *)
Equations? mod_exp_loop (modulus result base exp : Z) : Z
  by wf (Z.to_nat exp) lt :=
  mod_exp_loop modulus result base exp with inspect (0 <? exp) := {
    | exist _ false _ := result;
    | exist _ true Hexp :=
        let result' :=
          if exp `mod` 2 =? 1 then (result * base) `mod` modulus else result in
        let exp' := Z.shiftr exp 1 in
        let base' := (base * base) `mod` modulus in
        mod_exp_loop modulus result' base' exp' }.
Proof.
  apply Z.ltb_lt in Hexp. subst exp'. rewrite Z.shiftr_div_pow2 by lia.
  change (2 ^ 1) with 2.
  pose proof (Z.div_lt_upper_bound exp 2 exp). pose proof (Z.div_pos exp 2). lia.
Qed.

Definition mod_exp (base exp modulus : Z) : arith Z :=
  if modulus =? 0 then ZeroDivisionError
  else Val (mod_exp_loop modulus 1 (base `mod` modulus) exp).

(** [for r in range(1, N): if mod_exp(a, r, N) == 1: return r] *)
Fixpoint find_period_loop (a N : Z) (rs : list Z) : arith (option Z) :=
  match rs with
  | [] => Val None
  | r :: rs' =>
      match mod_exp a r N with
      | Val x => if x =? 1 then Val (Some r) else find_period_loop a N rs'
      | ZeroDivisionError => ZeroDivisionError
      end
  end.

Definition find_period_classical (a N : Z) : arith (option Z) :=
  find_period_loop a N (py_range 1 N).
End ShorDemo.

(** ** redeploy-paper/simple_demo.py *)
Module SimpleMPC.
(** [self.n_parties = 3] *)
Definition n_parties : Z := 3.

(** [random.randint(0, 1)]: the [k]-th draw of the generator, as a bit. *)
Definition randint01 (rnd : nat → nat) (k : nat) : Z :=
  Z.of_nat (rnd k `mod` 2).

(** The body of [for bit in secret_bits]; the state is [shares] and the
    number of draws made so far. *)
Definition share_bit (rnd : nat → nat) (st : list (list Z) * nat) (bit : Z)
  : result (list (list Z) * nat) :=
  let '(shares, k) := st in
  let s1 := randint01 rnd k in
  let s2 := randint01 rnd (S k) in
  let s3 := Z.lxor (Z.lxor bit s1) s2 in
  l0 ← py_index shares 0;
  shares ← py_setitem shares 0 (l0 ++ [s1]);
  l1 ← py_index shares 1;
  shares ← py_setitem shares 1 (l1 ++ [s2]);
  l2 ← py_index shares 2;
  shares ← py_setitem shares 2 (l2 ++ [s3]);
  Ok (shares, S (S k)).

Definition secret_share (rnd : nat → nat) (secret_bits : list Z)
  : result (list (list Z)) :=
  let shares := (λ _, []) <$> py_range 0 n_parties in
  '(shares, _) ← for_in secret_bits (share_bit rnd) (shares, O);
  Ok shares.

Definition compute_and_gate (party_id a_share b_share : Z) : Z :=
  let result := Z.land a_share b_share in
  if party_id =? 0 then Z.lxor result 1 else result.

(** [{'party_id': ..., 'input_shares': [a, b], 'output_share': ...}] *)
Record view := { party_id : Z; input_shares : list Z; output_share : Z }.

(** [str(xs)] for a list of integers *)
Definition list_str (xs : list Z) : string :=
  "[" +:+ String.concat ", " ((λ x, py_str (PyInt x)) <$> xs) +:+ "]".

(** [str(view)] *)
Definition view_str (v : view) : string :=
  "{'party_id': " +:+ py_str (PyInt (party_id v))
  +:+ ", 'input_shares': " +:+ list_str (input_shares v)
  +:+ ", 'output_share': " +:+ py_str (PyInt (output_share v)) +:+ "}".

(** A [for] loop whose body may [return]: [Some v] is the returned value,
    [None] means the loop ran to its end. *)
Fixpoint for_return {A R} (xs : list A) (body : A → result (option R))
  : result (option R) :=
  match xs with
  | [] => Ok None
  | x :: xs' =>
      r ← body x;
      match r with
      | Some v => Ok (Some v)
      | None => for_return xs' body
      end
  end.

Section WithHash.
Variable sha256_hexdigest : string → string.

(** [hashlib.sha256(str(view).encode()).hexdigest()[:8]] *)
Definition commit_view (v : view) : string :=
  substring 0 8 (sha256_hexdigest (view_str v)).

(** Step 2: the body of [for party_id in range(self.n_parties)]; the
    state is [(output_shares, party_views)]. *)
Definition party_step (shares : list (list Z)) (st : list Z * list view)
    (pid : Z) : result (list Z * list view) :=
  let '(output_shares, party_views) := st in
  row ← py_index shares pid;
  a_share ← py_index row 0;
  row ← py_index shares pid;
  b_share ← py_index row 1;
  let output := compute_and_gate pid a_share b_share in
  let v := {| party_id := pid; input_shares := [a_share; b_share];
              output_share := output |} in
  Ok (output_shares ++ [output], party_views ++ [v]).

(** Step 6: the views of the opened parties are read and printed. *)
Definition open_party (party_views : list view) (_ : unit) (pid : Z)
  : result unit :=
  v ← py_index party_views pid;
  let shares := input_shares v in
  let output := output_share v in
  s0 ← py_index shares 0;
  s1 ← py_index shares 1;
  Ok tt.

(** Step 7, first loop: the commitment of an opened party is recomputed
    and compared. *)
Definition check_commitment (party_views : list view)
    (commitments : list string) (pid : Z) : result (option bool) :=
  v ← py_index party_views pid;
  let expected_commit := commit_view v in
  c ← py_index commitments pid;
  if String.eqb expected_commit c then Ok None else Ok (Some false).

(** Step 7, second loop: the gate of an opened party is recomputed. *)
Definition check_computation (party_views : list view) (pid : Z)
  : result (option bool) :=
  v ← py_index party_views pid;
  match input_shares v with
  | [a; b] =>
      let expected_output := compute_and_gate pid a b in
      if expected_output =? output_share v then Ok None else Ok (Some false)
  | _ => Raise ValueError
  end.

Definition run_protocol (rnd : nat → nat) (witness : list Z) : result bool :=
  shares ← secret_share rnd witness;
  '(output_shares, party_views) ←
    for_in (py_range 0 n_parties) (party_step shares) ([], []);
  o0 ← py_index output_shares 0;
  o1 ← py_index output_shares 1;
  o2 ← py_index output_shares 2;
  let final_result := Z.lxor (Z.lxor o0 o1) o2 in
  w0 ← py_index witness 0;
  w1 ← py_index witness 1;
  let expected := Z.land w0 w1 in
  party_views ←
    (if negb (final_result =? expected) then
       v0 ← py_index party_views 0;
       py_setitem party_views 0
         {| party_id := party_id v0; input_shares := input_shares v0;
            output_share :=
              Z.lxor (output_share v0) (Z.lxor final_result expected) |}
     else Ok party_views);
  let commitments := commit_view <$> party_views in
  let parties_to_open := [0; 1] in
  _ ← for_in parties_to_open (open_party party_views) tt;
  r ← for_return parties_to_open (check_commitment party_views commitments);
  match r with
  | Some verdict => Ok verdict
  | None =>
      r ← for_return parties_to_open (check_computation party_views);
      match r with
      | Some verdict => Ok verdict
      | None =>
          v0 ← py_index party_views 0;
          v1 ← py_index party_views 1;
          a0 ← py_index (input_shares v0) 0;
          a1 ← py_index (input_shares v1) 0;
          b0 ← py_index (input_shares v0) 1;
          b1 ← py_index (input_shares v1) 1;
          Ok true
      end
  end.

(** [demo()]: the honest prover's run; the result is [success]. *)
Definition demo (rnd : nat → nat) : result bool :=
  let witness := [1; 1] in
  run_protocol rnd witness.
End WithHash.
End SimpleMPC.

Example view_str_ex :
  SimpleMPC.view_str
    {| SimpleMPC.party_id := 0; SimpleMPC.input_shares := [1; 0];
       SimpleMPC.output_share := -1 |}
  = "{'party_id': 0, 'input_shares': [1, 0], 'output_share': -1}"%string.
Proof. reflexivity. Qed.
Example mpc_demo_zero_draws : SimpleMPC.demo (λ s, s) (λ _, 0%nat) = Ok false.
Proof. reflexivity. Qed.
Example mpc_demo_one_draw :
  SimpleMPC.demo (λ s, s) (λ k, if k is O then 1%nat else 0%nat) = Ok true.
Proof. reflexivity. Qed.

Example shor_gcd_neg : ShorDemo.gcd 4 (-6) = -2.
Proof. reflexivity. Qed.
Example shor_mod_exp_7_4_15 : ShorDemo.mod_exp 7 4 15 = ShorDemo.Val 1.
Proof. reflexivity. Qed.
Example shor_period_7_15 :
  ShorDemo.find_period_classical 7 15 = ShorDemo.Val (Some 4).
Proof. reflexivity. Qed.

Example py_pow_inv_neg : Bridge.py_pow_inv 3 (-8) = Ok (-5).
Proof. reflexivity. Qed.
Example py_pow_inv_none : Bridge.py_pow_inv 3 6 = Raise ValueError.
Proof. reflexivity. Qed.
Example extended_gcd_3_8 : Bridge.extended_gcd 3 8 = (1, 3, -1).
Proof. reflexivity. Qed.
Example rsa_d : LegacyRsa.d = 3.
Proof. reflexivity. Qed.
Example rsa_sign_verify_7 :
  LegacyRsa.rsa_verify 7 (LegacyRsa.rsa_sign 7) = true.
Proof. reflexivity. Qed.
Example py_int16_ff : Bridge.py_int16 "fF0" = Ok 4080.
Proof. reflexivity. Qed.
Example sample_3_of_5 :
  random_sample (λ i, 7 * i + 3)%nat [10; 11; 12; 13; 14] 3 = Ok [13; 12; 14].
Proof. reflexivity. Qed.
Example gen_fib_10 :
  MiniStark.gen_fib_trace 10 = Ok [1; 1; 2; 3; 5; 8; 13; 21; 34; 55].
Proof. reflexivity. Qed.
Example vuln_commit_toy :
  VulnStark.commit_trace (λ x, ("h" +:+ py_str x)%string) [1; 1; 2]
  = Ok ("hhh1h1hh2h2", ["hhh1h1hh2h2"])%string.
Proof. vm_compute. reflexivity. Qed.

(** * Properties *)

(** ** The trace generator *)

(** The sequence the generator is meant to produce. *)
Fixpoint fib (n : nat) : Z :=
  match n with
  | O => 1
  | S m => match m with
           | O => 1
           | S k => fib m + fib k
           end
  end.

Lemma fib_rec n : fib (S (S n)) = fib (S n) + fib n.
Proof. done. Qed.

Lemma lookup_fib_seq (m i : nat) :
  (i < m)%nat → (fib <$> seq 0 m) !! i = Some (fib i).
Proof. intros H. by rewrite list_lookup_fmap, lookup_seq_lt by lia. Qed.

Definition fib_body (trace : list Z) (_ : Z) : result (list Z) :=
  a ← py_index trace (-1); b ← py_index trace (-2); Ok (trace ++ [a + b]).

Lemma fib_body_step m x :
  fib_body (fib <$> seq 0 (S (S m))) x = Ok (fib <$> seq 0 (S (S (S m)))).
Proof.
  unfold fib_body.
  rewrite (py_index_from_end _ 0 (fib (S m))); cycle 1.
  { rewrite length_fmap, length_seq. lia. }
  { rewrite length_fmap, length_seq.
    replace (S (S m) - 1)%nat with (S m) by lia. apply lookup_fib_seq. lia. }
  cbn [mbind result_bind].
  rewrite (py_index_from_end _ 1 (fib m)); cycle 1.
  { rewrite length_fmap, length_seq. lia. }
  { rewrite length_fmap, length_seq.
    replace (S (S m) - 2)%nat with m by lia. apply lookup_fib_seq. lia. }
  cbn [mbind result_bind].
  by rewrite (seq_S (S (S m))), fmap_app, <- fib_rec.
Qed.

Lemma fib_loop (xs : list Z) m :
  for_in xs fib_body (fib <$> seq 0 (S (S m)))
  = Ok (fib <$> seq 0 (S (S m) + length xs)).
Proof.
  revert m. induction xs as [|x xs IH]; intros m; cbn [for_in length].
  - by rewrite Nat.add_0_r.
  - rewrite fib_body_step. cbn [mbind result_bind]. rewrite IH.
    do 3 f_equal. lia.
Qed.

Lemma gen_fib_trace_fib n :
  MiniStark.gen_fib_trace n = Ok (fib <$> seq 0 (Z.to_nat (Z.max n 2))).
Proof.
  unfold MiniStark.gen_fib_trace.
  change (for_in (py_range 2 n) fib_body (fib <$> seq 0 2)
          = Ok (fib <$> seq 0 (Z.to_nat (Z.max n 2)))).
  rewrite fib_loop. unfold py_range. rewrite length_seqZ. do 3 f_equal. lia.
Qed.

Lemma gen_fib_trace_same n :
  VulnStark.gen_fib_trace n = MiniStark.gen_fib_trace n
  ∧ QSafe.gen_fib_trace n = MiniStark.gen_fib_trace n.
Proof. done. Qed.

Lemma py_index_fib (m : nat) (i : Z) :
  0 ≤ i < Z.of_nat m → py_index (fib <$> seq 0 m) i = Ok (fib (Z.to_nat i)).
Proof.
  intros Hi. rewrite <- (Z2Nat.id i) at 1 by lia.
  apply py_index_nonneg, lookup_fib_seq. lia.
Qed.

(** ** The proof builder and the verifier *)

Definition prove_body (trace : list Z) (proof : list (Z * Z * Z)) (i : Z)
  : result (list (Z * Z * Z)) :=
  a ← py_index trace i;
  b ← py_index trace (i + 1);
  let lhs := a + b in
  rhs ← py_index trace (i + 2);
  Ok (proof ++ [(i, lhs, rhs)]).

Lemma prove_unfold trace indices :
  MiniStark.prove trace indices = for_in indices (prove_body trace) [].
Proof. done. Qed.

Lemma prove_trace_same trace indices :
  QSafe.prove_trace trace indices = MiniStark.prove trace indices.
Proof. done. Qed.

Lemma verify_proof_same proof : QSafe.verify_proof proof = MiniStark.verify proof.
Proof. done. Qed.

(** The subscripts [i], [i+1], [i+2] are all readable exactly for
    [-n ≤ i < n - 2]: Python reads a negative subscript from the end. *)
Definition readable (n : nat) (i : Z) : Prop :=
  - Z.of_nat n ≤ i < Z.of_nat n - 2.

Lemma prove_body_ok trace acc i :
  readable (length trace) i →
  ∃ a b c, py_index trace i = Ok a ∧ py_index trace (i + 1) = Ok b
           ∧ py_index trace (i + 2) = Ok c
           ∧ prove_body trace acc i = Ok (acc ++ [(i, a + b, c)]).
Proof.
  intros [Hlo Hhi]. unfold prove_body.
  pose proof (py_index_is_ok trace i) as Ha.
  pose proof (py_index_is_ok trace (i + 1)) as Hb.
  pose proof (py_index_is_ok trace (i + 2)) as Hc.
  destruct (py_index trace i) as [a|]; [|exfalso; apply Ha; lia].
  destruct (py_index trace (i + 1)) as [b|]; [|exfalso; apply Hb; lia].
  destruct (py_index trace (i + 2)) as [c|]; [|exfalso; apply Hc; lia].
  by exists a, b, c.
Qed.

Lemma prove_body_raise trace acc i :
  ¬ readable (length trace) i → prove_body trace acc i = Raise IndexError.
Proof.
  intros Hnr. unfold prove_body.
  destruct (Z.lt_ge_cases i (- Z.of_nat (length trace))) as [Hlo|Hlo].
  { by rewrite (py_index_low trace i). }
  assert (Z.of_nat (length trace) ≤ i + 2) as Hhi by (unfold readable in Hnr; lia).
  rewrite (py_index_high trace (i + 2)) by done.
  destruct (py_index trace i) as [a|e] eqn:Ha; cbn.
  - destruct (py_index trace (i + 1)) as [b|e] eqn:Hb; cbn; [done|].
    by rewrite (py_index_exn _ _ _ Hb).
  - by rewrite (py_index_exn _ _ _ Ha).
Qed.

Lemma for_in_prove_ok trace indices acc :
  Forall (readable (length trace)) indices →
  ∃ proof, for_in indices (prove_body trace) acc = Ok (acc ++ proof)
           ∧ Forall2 (λ i t, ∃ a b c,
                 py_index trace i = Ok a ∧ py_index trace (i + 1) = Ok b
                 ∧ py_index trace (i + 2) = Ok c ∧ t = (i, a + b, c))
               indices proof.
Proof.
  intros Hall. revert acc.
  induction Hall as [|i indices Hi _ IH]; intros acc; cbn [for_in].
  - exists []. by rewrite app_nil_r.
  - destruct (prove_body_ok trace acc i Hi) as (a & b & c & Ha & Hb & Hc & ->).
    cbn [mbind result_bind].
    destruct (IH (acc ++ [(i, a + b, c)])) as (proof & -> & Hproof).
    exists ((i, a + b, c) :: proof). rewrite <- app_assoc. split; [done|].
    constructor; [|done]. by exists a, b, c.
Qed.

Lemma for_in_prove_raise trace indices acc :
  Exists (λ i, ¬ readable (length trace) i) indices →
  for_in indices (prove_body trace) acc = Raise IndexError.
Proof.
  intros Hex. revert acc.
  induction Hex as [i indices Hi|i indices _ IH]; intros acc; cbn [for_in].
  - by rewrite prove_body_raise.
  - destruct (prove_body trace acc i) as [acc'|e] eqn:Hb; cbn; [apply IH|].
    destruct (decide (readable (length trace) i)) as [Hr|Hr].
    + destruct (prove_body_ok trace acc i Hr) as (?&?&?&?&?&?&?). congruence.
    + rewrite prove_body_raise in Hb by done. congruence.
Qed.

Definition triple_ok (t : Z * Z * Z) : Prop := t.1.2 = t.2.

Lemma verify_true_iff proof :
  MiniStark.verify proof = true ↔ Forall triple_ok proof.
Proof.
  induction proof as [|[[i lhs] rhs] proof IH]; cbn.
  - split; [constructor|done].
  - rewrite Forall_cons. unfold triple_ok at 1. cbn.
    destruct (Z.eqb_spec lhs rhs); cbn; [tauto|]. split; [done|tauto].
Qed.

Lemma verify_false_iff proof :
  MiniStark.verify proof = false ↔ Exists (λ t, ¬ triple_ok t) proof.
Proof.
  induction proof as [|[[i lhs] rhs] proof IH]; cbn.
  - split; [done|]. by intros ?%Exists_nil.
  - rewrite Exists_cons. unfold triple_ok at 1. cbn.
    destruct (Z.eqb_spec lhs rhs); cbn; [tauto|]. split; [by left|done].
Qed.

(** ** The challenge sampler *)

Section SamplerFacts.
Context {A : Type}.
Variable rnd : nat → nat.

Lemma randbelow_range i m : 0 < m → 0 ≤ randbelow rnd i m < m.
Proof. intros Hm. unfold randbelow. by apply Z.mod_pos_bound. Qed.

(** Moving the last live entry into slot [j] removes [pool[j]] from the
    live prefix and keeps everything else. *)
Lemma swap_out_perm (pool : list A) (m j : nat) x y :
  (j ≤ m)%nat → pool !! j = Some x → pool !! m = Some y →
  x :: take m (<[j:=y]> pool) ≡ₚ take (S m) pool.
Proof.
  intros Hj Hx Hy. rewrite (take_S_r _ _ _ Hy).
  destruct (decide (j = m)) as [->|Hne].
  - rewrite take_insert_ge by lia. simplify_eq.
    by rewrite Permutation_app_comm.
  - rewrite take_insert_lt by lia.
    assert (take m pool !! j = Some x) as Hx' by (by rewrite lookup_take_lt by lia).
    rewrite insert_take_drop by (by eapply lookup_lt_Some).
    rewrite <- (take_drop_middle _ _ _ Hx') at 3.
    generalize (take j (take m pool)) (drop (S j) (take m pool)).
    intros l1 l2. rewrite (Permutation_app_comm _ [y]). cbn.
    rewrite <- !Permutation_middle. apply Permutation_swap.
Qed.

Lemma sample_pool_spec (todo : nat) : ∀ (pool : list A) (n i : Z),
  Z.of_nat (length pool) = n → 0 ≤ i → i + Z.of_nat todo ≤ n →
  NoDup (take (Z.to_nat (n - i)) pool) →
  ∃ l, sample_pool rnd pool n i todo = Ok l
       ∧ length l = todo ∧ NoDup l ∧ l ⊆ take (Z.to_nat (n - i)) pool.
Proof.
  induction todo as [|todo IH]; intros pool n i Hlen Hi Hle Hnd.
  { exists []. repeat split; [constructor|]. apply list_subseteq_nil. }
  cbn [sample_pool].
  pose proof (randbelow_range i (n - i)) as Hj.
  set (j := randbelow rnd i (n - i)) in *.
  assert (0 ≤ j < n - i) as [Hj0 Hj1] by (apply Hj; lia). clear Hj.
  destruct (lookup_lt_is_Some_2 pool (Z.to_nat j)) as [x Hx]; [lia|].
  destruct (lookup_lt_is_Some_2 pool (Z.to_nat (n - i - 1))) as [y Hy]; [lia|].
  rewrite (py_index_lookup pool j x) by done. cbn [mbind result_bind].
  rewrite (py_index_lookup pool (n - i - 1) y) by (done || lia).
  cbn [mbind result_bind].
  unfold py_setitem. rewrite norm_index_nonneg by lia.
  cbn [mbind result_bind].
  pose proof (swap_out_perm pool (Z.to_nat (n - i - 1)) (Z.to_nat j) x y) as Hp.
  replace (S (Z.to_nat (n - i - 1))) with (Z.to_nat (n - i)) in Hp by lia.
  specialize (Hp ltac:(lia) Hx Hy).
  rewrite <- Hp in Hnd. apply NoDup_cons in Hnd as [Hxin Hnd'].
  destruct (IH (<[Z.to_nat j:=y]> pool) n (i + 1)) as (l & -> & Hl & Hndl & Hsub).
  { by rewrite length_insert. }
  { lia. }
  { lia. }
  { by replace (n - (i + 1)) with (n - i - 1) by lia. }
  replace (n - (i + 1)) with (n - i - 1) in Hsub by lia.
  exists (x :: l). cbn. repeat split.
  - by rewrite Hl.
  - apply NoDup_cons. split; [|done]. intros Hin. by apply Hxin, Hsub.
  - intros z Hz. rewrite <- Hp. apply elem_of_cons in Hz as [->|Hz].
    + left.
    + right. by apply Hsub.
Qed.

Lemma random_sample_ok (population : list A) (k : Z) :
  NoDup population → 0 ≤ k ≤ Z.of_nat (length population) →
  ∃ l, random_sample rnd population k = Ok l
       ∧ Z.of_nat (length l) = k ∧ NoDup l ∧ l ⊆ population.
Proof.
  intros Hnd [Hk0 Hk1]. unfold random_sample.
  destruct (Z.leb_spec 0 k); [|lia].
  destruct (Z.leb_spec k (Z.of_nat (length population))); [|lia]. cbn.
  destruct (sample_pool_spec (Z.to_nat k) population
              (Z.of_nat (length population)) 0) as (l & Hl & Hlen & Hndl & Hsub).
  { done. } { done. } { lia. }
  { rewrite take_ge by lia. done. }
  rewrite take_ge in Hsub by lia.
  exists l. repeat split; [done|lia|done|done].
Qed.

Lemma random_sample_raise (population : list A) (k : Z) :
  ¬ (0 ≤ k ≤ Z.of_nat (length population)) →
  random_sample rnd population k = Raise ValueError.
Proof.
  intros Hk. unfold random_sample.
  destruct (Z.leb_spec 0 k); [|done].
  destruct (Z.leb_spec k (Z.of_nat (length population))); [lia|done].
Qed.
End SamplerFacts.

Lemma py_range_challenges n :
  NoDup (py_range 0 (n - 2))
  ∧ Z.of_nat (length (py_range 0 (n - 2))) = Z.max (n - 2) 0
  ∧ ∀ i, i ∈ py_range 0 (n - 2) ↔ 0 ≤ i < n - 2.
Proof.
  unfold py_range. split; [apply NoDup_seqZ|]. split.
  - rewrite length_seqZ. lia.
  - intros i. rewrite elem_of_seqZ. lia.
Qed.

Lemma random_challenges_ok rnd n k :
  0 ≤ k ≤ Z.max (n - 2) 0 →
  ∃ idx, MiniStark.random_challenges rnd n k = Ok idx
         ∧ Z.of_nat (length idx) = k ∧ NoDup idx
         ∧ Forall (λ i, 0 ≤ i < n - 2) idx.
Proof.
  intros Hk. destruct (py_range_challenges n) as (Hnd & Hlen & Hin).
  destruct (random_sample_ok rnd (py_range 0 (n - 2)) k Hnd)
    as (idx & Hs & Hl & Hndi & Hsub); [lia|].
  exists idx. repeat split; try done.
  apply Forall_forall. intros i Hi. by apply Hin, Hsub.
Qed.

Lemma random_challenges_raise rnd n k :
  ¬ (0 ≤ k ≤ Z.max (n - 2) 0) →
  MiniStark.random_challenges rnd n k = Raise ValueError.
Proof.
  intros Hk. destruct (py_range_challenges n) as (_ & Hlen & _).
  apply random_sample_raise. lia.
Qed.

Lemma random_challenges_same rnd n k :
  QSafe.random_challenges rnd n k = MiniStark.random_challenges rnd n k.
Proof. done. Qed.

(** ** The Merkle loops *)

(** After [funelim] on one of the loops, each case carries the value of
    the loop test and of the level step as equations. *)
Ltac by_loop_guards :=
  repeat match goal with
         | H : bool_decide _ = _ |- _ => rewrite H
         | H : fold_level _ _ = _ |- _ => rewrite H
         end;
  done.

Section LoopFacts.
Variable hash_func : pyval → string.

Lemma commit_while_unfold (leaves : list string) :
  VulnStark.commit_while hash_func leaves =
  if bool_decide (1 < length leaves)%nat
  then leaves' ← fold_level hash_func leaves;
       VulnStark.commit_while hash_func leaves'
  else root ← py_index leaves 0; Ok (root, leaves).
Proof.
  funelim (VulnStark.commit_while hash_func leaves); by_loop_guards.
Qed.

Lemma build_merkle_unfold (L : list string) :
  Attack.build_merkle_from_leaves hash_func L =
  if bool_decide (1 < length L)%nat
  then L' ← fold_level hash_func L;
       Attack.build_merkle_from_leaves hash_func L'
  else py_index L 0.
Proof.
  funelim (Attack.build_merkle_from_leaves hash_func L); by_loop_guards.
Qed.

(** Induction along the levels a loop visits. *)
Lemma level_ind (P : list string → Prop) :
  (∀ L, (length L ≤ 1)%nat → P L) →
  (∀ L L', (1 < length L)%nat → fold_level hash_func L = Ok L' →
           (0 < length L' < length L)%nat → P L' → P L) →
  ∀ L, P L.
Proof.
  intros Hbase Hstep L.
  induction (Nat.lt_wf_0_projected length L) as [L _ IH].
  destruct (decide (1 < length L)%nat) as [Hgt|Hle]; [|apply Hbase; lia].
  destruct (fold_level_ok hash_func L) as [L' HL'].
  { intros ->. cbn in Hgt. lia. }
  pose proof (fold_level_shrinks hash_func L L' HL' Hgt) as Hlen.
  apply (Hstep L L' Hgt HL' Hlen), IH. lia.
Qed.

(** The commitment loop ends on a one-node level: its second component
    is the list holding just the root. *)
Lemma commit_while_final (leaves : list string) :
  leaves ≠ [] →
  ∃ root, VulnStark.commit_while hash_func leaves = Ok (root, [root]).
Proof.
  induction leaves as [L Hle|L L' Hgt Hstep Hlen IH] using level_ind;
    intros Hne; rewrite commit_while_unfold.
  - rewrite bool_decide_eq_false_2 by lia.
    destruct L as [|x [|y L]]; [done| |cbn in Hle; lia].
    exists x. by rewrite py_index_cons_0.
  - rewrite bool_decide_eq_true_2, Hstep by done. cbn [mbind result_bind].
    apply IH. intros ->. cbn in Hlen. lia.
Qed.

Lemma build_merkle_commit_while (L : list string) :
  Attack.build_merkle_from_leaves hash_func L
  = fst <$> VulnStark.commit_while hash_func L.
Proof.
  induction L as [L Hle|L L' Hgt Hstep Hlen IH] using level_ind;
    rewrite build_merkle_unfold, commit_while_unfold.
  - rewrite bool_decide_eq_false_2 by lia. by destruct (py_index L 0).
  - rewrite bool_decide_eq_true_2, Hstep by done. done.
Qed.

Lemma pad_odd_odd (L : list string) x :
  Nat.Odd (length L) → last L = Some x → pad_odd L = Ok (L ++ [x]).
Proof.
  intros [k Hk] Hlast. unfold pad_odd.
  replace (Z.of_nat (length L) `mod` 2) with 1; cycle 1.
  { rewrite Hk. replace (Z.of_nat (2 * k + 1)) with (1 + Z.of_nat k * 2) by lia.
    by rewrite Z.mod_add. }
  cbn [Z.eqb negb].
  apply last_Some in Hlast as [L0 ->]. by rewrite py_index_last_snoc.
Qed.

Lemma pad_odd_even (L : list string) : Nat.Even (length L) → pad_odd L = Ok L.
Proof.
  intros [k Hk]. unfold pad_odd.
  replace (Z.of_nat (length L) `mod` 2) with 0; [done|].
  rewrite Hk. replace (Z.of_nat (2 * k)) with (0 + Z.of_nat k * 2) by lia.
  by rewrite Z.mod_add.
Qed.

(** One level: duplicating the last node by the rule, or by hand before
    the fold, is the same. *)
Lemma fold_level_padded (L : list string) x :
  Nat.Odd (length L) → last L = Some x →
  fold_level hash_func L = fold_level hash_func (L ++ [x])
  ∧ fold_level hash_func L = pairs hash_func (L ++ [x]).
Proof.
  intros Hodd Hlast. unfold fold_level.
  rewrite (pad_odd_odd L x Hodd Hlast), pad_odd_even; cycle 1.
  { destruct Hodd as [k Hk]. exists (S k). rewrite length_app. cbn. lia. }
  cbn [mbind result_bind]. by rewrite pair_level_pairs.
Qed.
End LoopFacts.

Section QSafeFacts.
Variable sha3_512_hexdigest : string → string.
Abbreviation hash512 := (QSafe.hash512 sha3_512_hexdigest).
Abbreviation merkle_root_from_leaves :=
  (QSafe.merkle_root_from_leaves sha3_512_hexdigest).

Lemma merkle_root_unfold (L : list string) :
  merkle_root_from_leaves L =
  if bool_decide (1 < length L)%nat
  then L' ← fold_level hash512 L; merkle_root_from_leaves L'
  else py_index L 0.
Proof.
  funelim (QSafe.merkle_root_from_leaves sha3_512_hexdigest L); by_loop_guards.
Qed.

Lemma merkle_root_ok (L : list string) :
  L ≠ [] → ∃ root, merkle_root_from_leaves L = Ok root.
Proof.
  induction L as [L Hle|L L' Hgt Hstep Hlen IH] using (level_ind hash512);
    intros Hne; rewrite merkle_root_unfold.
  - rewrite bool_decide_eq_false_2 by lia.
    destruct L as [|x L]; [done|]. exists x. by rewrite py_index_cons_0.
  - rewrite bool_decide_eq_true_2, Hstep by done. cbn [mbind result_bind].
    apply IH. intros ->. cbn in Hlen. lia.
Qed.
End QSafeFacts.


(** ** The specification, statement by statement *)

(** C1 (as [vuln_stark.commit_trace] behaves): for a trace of two or more
    elements the function returns the root paired with the final one-node
    level [[root]], because the loop has overwritten [leaves]; the list of
    per-element leaf digests that the claim describes is not returned. *)
Theorem vuln_commit_trace_returns_final_level
    (hash_func : pyval → string) (trace : list Z) :
  (2 ≤ length trace)%nat →
  ∃ root, VulnStark.commit_trace hash_func trace = Ok (root, [root])
          ∧ [root] ≠ (λ v, hash_func (PyInt v)) <$> trace.
Proof.
  intros Hlen. unfold VulnStark.commit_trace.
  destruct (commit_while_final hash_func ((λ v, hash_func (PyInt v)) <$> trace))
    as [root Hroot].
  { destruct trace; [cbn in Hlen; lia|done]. }
  exists root. split; [done|].
  intros Heq. apply (f_equal length) in Heq.
  rewrite length_fmap in Heq. cbn in Heq. lia.
Qed.

Lemma vuln_commit_trace_returns_final_level_witness :
  ∃ root, VulnStark.commit_trace (λ x, ("h" +:+ py_str x)%string) [1; 1]
          = Ok (root, [root])
          ∧ [root] ≠ (λ v, ("h" +:+ py_str (PyInt v))%string) <$> [1; 1].
Proof.
  apply (vuln_commit_trace_returns_final_level
           (λ x, ("h" +:+ py_str x)%string) [1; 1]).
  cbn. lia.
Defined.




(** C3: padding law.  On a level with an odd number (three or more) of
    nodes, the fold with the duplication rule equals the fold of the level
    with its last node appended by hand (which then only pairs an even
    level), and so do the roots computed by [merkle_root_from_leaves] and
    by the loop of [vuln_stark.commit_trace] (on leaf lists and on traces);
    the root exists. *)
Theorem padding_law
    (sha3_512_hexdigest : string → string) (hash_func : pyval → string)
    (L : list string) (x : string) :
  Nat.Odd (length L) → (3 ≤ length L)%nat → last L = Some x →
  fold_level hash_func L = fold_level hash_func (L ++ [x])
  ∧ fold_level hash_func L = pair_level hash_func (L ++ [x])
  ∧ (∃ root, QSafe.merkle_root_from_leaves sha3_512_hexdigest L = Ok root
             ∧ QSafe.merkle_root_from_leaves sha3_512_hexdigest (L ++ [x])
               = Ok root)
  ∧ VulnStark.commit_while hash_func (L ++ [x])
    = VulnStark.commit_while hash_func L
  ∧ (∀ (trace : list Z) v,
       (λ v, hash_func (PyInt v)) <$> trace = L → last trace = Some v →
       VulnStark.commit_trace hash_func (trace ++ [v])
       = VulnStark.commit_trace hash_func trace).
Proof.
  intros Hodd Hlen Hlast.
  assert (VulnStark.commit_while hash_func (L ++ [x])
          = VulnStark.commit_while hash_func L) as Hvuln.
  { rewrite (commit_while_unfold _ L), (commit_while_unfold _ (L ++ [x])).
    rewrite length_app, !bool_decide_eq_true_2 by (cbn; lia).
    by destruct (fold_level_padded hash_func L x Hodd Hlast) as [<- _]. }
  split; [by apply fold_level_padded|].
  split; [rewrite pair_level_pairs; by apply fold_level_padded|].
  split; [|split; [done|]].
  - destruct (merkle_root_ok sha3_512_hexdigest L) as [root Hroot].
    { intros ->. cbn in Hlen. lia. }
    exists root. split; [done|]. rewrite <- Hroot.
    rewrite (merkle_root_unfold _ L), (merkle_root_unfold _ (L ++ [x])).
    rewrite length_app, !bool_decide_eq_true_2 by (cbn; lia).
    by destruct (fold_level_padded (QSafe.hash512 sha3_512_hexdigest) L x
                   Hodd Hlast) as [<- _].
  - intros trace v <- Hv. unfold VulnStark.commit_trace.
    rewrite fmap_app. cbn [fmap list_fmap]. rewrite <- Hvuln. do 3 f_equal.
    rewrite fmap_last, Hv in Hlast. by simplify_eq/=.
Qed.

Lemma padding_law_witness :
  fold_level py_str ["a"; "b"; "c"]%string
  = fold_level py_str (["a"; "b"; "c"]%string ++ ["c"]%string)
  ∧ fold_level py_str ["a"; "b"; "c"]%string
    = pair_level py_str (["a"; "b"; "c"]%string ++ ["c"]%string)
  ∧ (∃ root, QSafe.merkle_root_from_leaves (λ s, s) ["a"; "b"; "c"]%string
             = Ok root
             ∧ QSafe.merkle_root_from_leaves (λ s, s)
                 (["a"; "b"; "c"]%string ++ ["c"]%string) = Ok root)
  ∧ VulnStark.commit_while py_str (["a"; "b"; "c"]%string ++ ["c"]%string)
    = VulnStark.commit_while py_str ["a"; "b"; "c"]%string
  ∧ (∀ (trace : list Z) v,
       (λ v, py_str (PyInt v)) <$> trace = ["a"; "b"; "c"]%string →
       last trace = Some v →
       VulnStark.commit_trace py_str (trace ++ [v])
       = VulnStark.commit_trace py_str trace).
Proof.
  apply (padding_law (λ s, s) py_str ["a"; "b"; "c"]%string "c"%string).
  - exists 1%nat. reflexivity.
  - cbn. lia.
  - reflexivity.
Defined.

Lemma verify_fib_proof (m : nat) indices proof :
  Forall (λ i, 0 ≤ i < Z.of_nat m - 2) indices →
  Forall2 (λ i t, ∃ a b c,
      py_index (fib <$> seq 0 m) i = Ok a
      ∧ py_index (fib <$> seq 0 m) (i + 1) = Ok b
      ∧ py_index (fib <$> seq 0 m) (i + 2) = Ok c ∧ t = (i, a + b, c))
    indices proof →
  MiniStark.verify proof = true.
Proof.
  intros Hidx Hproof. apply verify_true_iff.
  induction Hproof as [|i t indices proof (a & b & c & Ha & Hb & Hc & ->) _ IH];
    [constructor|].
  apply Forall_cons in Hidx as [Hi Hidx]. constructor; [|by apply IH].
  rewrite py_index_fib in Ha, Hb, Hc by lia. simplify_eq.
  unfold triple_ok. cbn.
  replace (Z.to_nat (i + 2)) with (S (S (Z.to_nat i))) by lia.
  replace (Z.to_nat (i + 1)) with (S (Z.to_nat i)) by lia.
  rewrite fib_rec. lia.
Qed.

Lemma prove_verify_genuine (n : Z) (indices : list Z) :
  2 ≤ n → Forall (λ i, 0 ≤ i < n - 2) indices →
  ∃ trace proof,
    MiniStark.gen_fib_trace n = Ok trace ∧ Z.of_nat (length trace) = n
    ∧ MiniStark.prove trace indices = Ok proof
    ∧ MiniStark.verify proof = true.
Proof.
  intros Hn Hidx. rewrite gen_fib_trace_fib.
  set (m := Z.to_nat (Z.max n 2)).
  assert (Z.of_nat m = n) as Hm by lia.
  assert (length (fib <$> seq 0 m) = m) as Hlen
    by (by rewrite length_fmap, length_seq).
  destruct (for_in_prove_ok (fib <$> seq 0 m) indices []) as (proof & Hp & Hall).
  { rewrite Hlen. eapply Forall_impl; [exact Hidx|]. unfold readable.
    intros i Hi. cbn in Hi. lia. }
  exists (fib <$> seq 0 m), proof. rewrite Hlen, prove_unfold.
  repeat split; [done|done|].
  apply (verify_fib_proof m indices); [|done].
  eapply Forall_impl; [exact Hidx|]. intros i Hi. cbn in Hi. lia.
Qed.

(** C4: recurrence soundness.  For [n ≥ 2] the generator returns a trace
    of length [n], and for every list of challenge indices in [[0, n-2)]
    [prove] succeeds on it and [verify] accepts the proof. *)
Theorem recurrence_soundness (n : Z) (indices : list Z) :
  2 ≤ n → Forall (λ i, 0 ≤ i < n - 2) indices →
  ∃ trace proof,
    MiniStark.gen_fib_trace n = Ok trace ∧ Z.of_nat (length trace) = n
    ∧ MiniStark.prove trace indices = Ok proof
    ∧ MiniStark.verify proof = true.
Proof. apply prove_verify_genuine. Qed.

Lemma recurrence_soundness_witness :
  ∃ trace proof,
    MiniStark.gen_fib_trace 10 = Ok trace ∧ Z.of_nat (length trace) = 10
    ∧ MiniStark.prove trace [7; 0; 4] = Ok proof
    ∧ MiniStark.verify proof = true.
Proof.
  apply (recurrence_soundness 10 [7; 0; 4]); [lia|].
  repeat constructor; lia.
Defined.

(** Scenario B of the specification, for any generator state: sample,
    prove, verify. *)
Lemma sample_prove_verify (rnd : nat → nat) (n k : Z) :
  2 ≤ n → 0 ≤ k ≤ n - 2 →
  ∃ trace idx proof,
    MiniStark.gen_fib_trace n = Ok trace
    ∧ MiniStark.random_challenges rnd n k = Ok idx
    ∧ MiniStark.prove trace idx = Ok proof
    ∧ MiniStark.verify proof = true.
Proof.
  intros Hn Hk.
  destruct (random_challenges_ok rnd n k) as (idx & Hidx & _ & _ & Hall); [lia|].
  destruct (prove_verify_genuine n idx Hn Hall) as (trace & proof & ? & ? & ? & ?).
  by exists trace, idx, proof.
Qed.

Lemma verify_tampered (proof : list (Z * Z * Z)) (j : nat) i lhs rhs :
  MiniStark.verify proof = true → proof !! j = Some (i, lhs, rhs) →
  MiniStark.verify (<[j:=(i, lhs, rhs + 1)]> proof) = false.
Proof.
  intros Hok Hj. apply verify_false_iff, Exists_exists.
  exists (i, lhs, rhs + 1). split.
  - apply list_elem_of_lookup. exists j.
    apply list_lookup_insert_eq. by eapply lookup_lt_Some.
  - apply verify_true_iff in Hok. rewrite Forall_forall in Hok.
    assert (triple_ok (i, lhs, rhs)) as Ht
      by (apply Hok, list_elem_of_lookup; eauto).
    unfold triple_ok in *. cbn in *. lia.
Qed.

(** C5: [verify] (and its copy [verify_proof]) is a total boolean
    function; it returns [True] exactly when every triple has
    [lhs == rhs], [False] exactly when some triple has not, and a valid
    proof in which one [rhs] is replaced by [rhs + 1] is rejected. *)
Theorem verify_iff_all_equal (proof : list (Z * Z * Z)) :
  (MiniStark.verify proof = true ↔ Forall triple_ok proof)
  ∧ (MiniStark.verify proof = false ↔ Exists (λ t, ¬ triple_ok t) proof)
  ∧ QSafe.verify_proof proof = MiniStark.verify proof
  ∧ (∀ (j : nat) i lhs rhs,
       MiniStark.verify proof = true → proof !! j = Some (i, lhs, rhs) →
       MiniStark.verify (<[j:=(i, lhs, rhs + 1)]> proof) = false).
Proof.
  split; [apply verify_true_iff|]. split; [apply verify_false_iff|].
  split; [done|]. intros j i lhs rhs. apply verify_tampered.
Qed.

Lemma verify_iff_all_equal_witness :
  MiniStark.verify (<[1%nat:=(1, 3, 3 + 1)]> [(0, 2, 2); (1, 3, 3); (2, 5, 5)])
  = false.
Proof.
  apply (proj2 (proj2 (proj2
           (verify_iff_all_equal [(0, 2, 2); (1, 3, 3); (2, 5, 5)])))
           1%nat 1 3 3); reflexivity.
Defined.

(** C7 (counterexample): the index [-3] is outside [[0, n-2)] for the
    three-element trace, yet [prove] answers it, reading from the end. *)
Lemma prove_negative_index_accepted :
  MiniStark.prove [1; 1; 2] [-3] = Ok [(-3, 2, 2)]
  ∧ ¬ (0 ≤ -3 < Z.of_nat (length [1; 1; 2]) - 2).
Proof. split; [done|lia]. Qed.

(** C7 (amended): for a trace of length [n], [prove] raises [IndexError]
    whenever some index lies outside [[-n, n-2)], and returns a proof
    whenever every index lies in [[-n, n-2)]; in particular it never fails
    on indices in [[0, n-2)], nor on the indices the sampler returns. *)
Theorem prove_fails_iff_unreadable (trace : list Z) (indices : list Z) :
  (Exists (λ i, ¬ (- Z.of_nat (length trace) ≤ i < Z.of_nat (length trace) - 2))
          indices →
   MiniStark.prove trace indices = Raise IndexError)
  ∧ (Forall (λ i, - Z.of_nat (length trace) ≤ i < Z.of_nat (length trace) - 2)
            indices →
     ∃ proof, MiniStark.prove trace indices = Ok proof)
  ∧ (Forall (λ i, 0 ≤ i < Z.of_nat (length trace) - 2) indices →
     ∃ proof, MiniStark.prove trace indices = Ok proof)
  ∧ (∀ rnd k,
       MiniStark.random_challenges rnd (Z.of_nat (length trace)) k = Ok indices →
       ∃ proof, MiniStark.prove trace indices = Ok proof).
Proof.
  assert (Forall (readable (length trace)) indices →
          ∃ proof, MiniStark.prove trace indices = Ok proof) as Hok.
  { intros Hall. rewrite prove_unfold.
    destruct (for_in_prove_ok trace indices [] Hall) as (proof & -> & _).
    by exists proof. }
  split; [|split; [exact Hok|split]].
  - intros Hex. rewrite prove_unfold. by apply for_in_prove_raise.
  - intros Hall. apply Hok. eapply Forall_impl; [exact Hall|].
    unfold readable. intros i Hi. cbn in Hi. lia.
  - intros rnd k Hs. apply Hok.
    destruct (decide (0 ≤ k ≤ Z.max (Z.of_nat (length trace) - 2) 0)) as [Hk|Hk].
    + destruct (random_challenges_ok rnd _ k Hk) as (idx & Hidx & _ & _ & Hall).
      rewrite Hs in Hidx. simplify_eq.
      eapply Forall_impl; [exact Hall|]. unfold readable. intros i Hi. cbn in Hi. lia.
    + by rewrite random_challenges_raise in Hs.
Qed.

Lemma prove_fails_iff_unreadable_witness :
  MiniStark.prove [1; 1; 2; 3; 5] [0; 5] = Raise IndexError
  ∧ ∃ proof, MiniStark.prove [1; 1; 2; 3; 5] [2; -5; 0] = Ok proof.
Proof.
  split.
  - apply (proj1 (prove_fails_iff_unreadable [1; 1; 2; 3; 5] [0; 5])).
    right. left. cbn. lia.
  - apply (proj1 (proj2 (prove_fails_iff_unreadable [1; 1; 2; 3; 5] [2; -5; 0]))).
    repeat constructor; cbn; lia.
Defined.

Lemma py_setitem_same {A B} (f : A → B) (l : list A) (i : Z) (v : A) :
  py_index l i = Ok v → py_setitem (f <$> l) i (f v) = Ok (f <$> l).
Proof.
  unfold py_index, py_setitem. rewrite length_fmap.
  destruct (norm_index (length l) i) as [j|]; cbn; [|done].
  destruct (l !! j) as [x|] eqn:Hj; intros; simplify_eq.
  f_equal. apply list_insert_id. by rewrite list_lookup_fmap, Hj.
Qed.



(** C8 (counterexample): for the length 1, below 2, the generator does
    not fail; it returns the two seed values. *)
Lemma gen_fib_trace_short_succeeds :
  MiniStark.gen_fib_trace 1 = Ok [1; 1]
  ∧ VulnStark.gen_fib_trace 1 = Ok [1; 1]
  ∧ ¬ (∀ n, n < 2 → ∃ e, MiniStark.gen_fib_trace n = Raise e).
Proof.
  split; [done|]. split; [done|].
  intros H. destruct (H 1) as [e He]; [lia|]. discriminate He.
Qed.

(** C8 (amended): trace generation never fails.  For every integer [n] it
    returns a trace of length [max(n, 2)], so of length exactly [n] when
    [n ≥ 2], with [trace[0] = trace[1] = 1] and
    [trace[i] = trace[i-1] + trace[i-2]] for [2 ≤ i < len(trace)]. *)
Theorem gen_fib_trace_total (n : Z) :
  ∃ trace,
    MiniStark.gen_fib_trace n = Ok trace
    ∧ VulnStark.gen_fib_trace n = Ok trace
    ∧ Z.of_nat (length trace) = Z.max n 2
    ∧ (2 ≤ n → Z.of_nat (length trace) = n)
    ∧ py_index trace 0 = Ok 1 ∧ py_index trace 1 = Ok 1
    ∧ ∀ i, 2 ≤ i < Z.of_nat (length trace) →
        ∃ a b, py_index trace (i - 1) = Ok a ∧ py_index trace (i - 2) = Ok b
               ∧ py_index trace i = Ok (a + b).
Proof.
  exists (fib <$> seq 0 (Z.to_nat (Z.max n 2))).
  destruct (gen_fib_trace_same n) as [-> _]. rewrite gen_fib_trace_fib.
  rewrite length_fmap, length_seq.
  split; [done|]. split; [done|]. split; [lia|]. split; [lia|].
  split; [by rewrite py_index_fib by lia|].
  split; [by rewrite py_index_fib by lia|].
  intros i Hi. exists (fib (Z.to_nat (i - 1))), (fib (Z.to_nat (i - 2))).
  rewrite !py_index_fib by lia. repeat split. f_equal.
  replace (Z.to_nat i) with (S (S (Z.to_nat (i - 2)))) by lia.
  replace (Z.to_nat (i - 1)) with (S (Z.to_nat (i - 2))) by lia.
  apply fib_rec.
Qed.

Lemma gen_fib_trace_total_witness :
  ∃ trace,
    MiniStark.gen_fib_trace 10 = Ok trace
    ∧ VulnStark.gen_fib_trace 10 = Ok trace
    ∧ Z.of_nat (length trace) = Z.max 10 2
    ∧ (2 ≤ 10 → Z.of_nat (length trace) = 10)
    ∧ py_index trace 0 = Ok 1 ∧ py_index trace 1 = Ok 1
    ∧ ∀ i, 2 ≤ i < Z.of_nat (length trace) →
        ∃ a b, py_index trace (i - 1) = Ok a ∧ py_index trace (i - 2) = Ok b
               ∧ py_index trace i = Ok (a + b).
Proof. apply (gen_fib_trace_total 10). Defined.




Lemma random_challenges_zero (rnd : nat → nat) (n : Z) :
  MiniStark.random_challenges rnd n 0 = Ok [].
Proof.
  unfold MiniStark.random_challenges, random_sample.
  destruct (Z.leb_spec 0 (Z.of_nat (length (py_range 0 (n - 2))))); [done|lia].
Qed.

(** C10: [verify] accepts the empty proof; the sampler grants [k = 0] for
    every [n], [prove] then builds the empty proof from any trace, and the
    round accepts without any triple having been checked. *)
Theorem zero_challenges_accept (rnd : nat → nat) (n : Z) (trace : list Z) :
  MiniStark.verify [] = true
  ∧ MiniStark.random_challenges rnd n 0 = Ok []
  ∧ MiniStark.prove trace [] = Ok []
  ∧ (idx ← MiniStark.random_challenges rnd n 0;
     proof ← MiniStark.prove trace idx;
     Ok (MiniStark.verify proof)) = Ok true.
Proof. by rewrite random_challenges_zero. Qed.

(** * Further properties of the code *)

(** ** legacy_rsa_toy.py *)

Lemma rsa_constants : LegacyRsa.N = 15 ∧ LegacyRsa.e = 3 ∧ LegacyRsa.d = 3.
Proof. done. Qed.

(** Cubing permutes the residues modulo 15, and cubing twice is the
    identity on them. *)
Definition cube15 (r : Z) : Z := (r ^ 3) `mod` 15.

Lemma residues15 (P : Z → Prop) :
  Forall P (seqZ 0 15) → ∀ r, 0 ≤ r < 15 → P r.
Proof. intros H r Hr. rewrite Forall_seqZ in H. apply H. lia. Qed.

Lemma cube15_involutive r : 0 ≤ r < 15 → cube15 (cube15 r) = r.
Proof.
  revert r. apply residues15. repeat (constructor; [reflexivity|]). constructor.
Qed.

Lemma cube15_mod m : cube15 (m `mod` 15) = cube15 m.
Proof. unfold cube15. by rewrite <- Zpower_mod. Qed.

Lemma cube15_range m : 0 ≤ cube15 m < 15.
Proof. unfold cube15. by apply Z.mod_pos_bound. Qed.

Lemma rsa_sign_cube m : LegacyRsa.rsa_sign m = cube15 m.
Proof. done. Qed.

Lemma rsa_verify_cube m s :
  LegacyRsa.rsa_verify m s = (cube15 s =? m `mod` 15).
Proof. done. Qed.

Lemma rsa_sign_verify_roundtrip_holds (m : Z) :
  LegacyRsa.rsa_verify m (LegacyRsa.rsa_sign m) = true.
Proof.
  change ((cube15 (cube15 m) =? m `mod` 15) = true). apply Z.eqb_eq.
  rewrite <- (cube15_mod m). apply cube15_involutive.
  by apply Z.mod_pos_bound.
Qed.

(** X1: a signature made by [rsa_sign] is accepted by [rsa_verify], for
    every integer message (negative ones included). *)
Theorem rsa_sign_verify_roundtrip (m : Z) :
  LegacyRsa.rsa_verify m (LegacyRsa.rsa_sign m) = true.
Proof. apply rsa_sign_verify_roundtrip_holds. Qed.

Lemma rsa_verify_iff_signature_holds (m s : Z) :
  (LegacyRsa.rsa_verify m s = true ↔ s `mod` LegacyRsa.N = LegacyRsa.rsa_sign m)
  ∧ 0 ≤ LegacyRsa.rsa_sign m < LegacyRsa.N
  ∧ LegacyRsa.rsa_sign (m `mod` LegacyRsa.N) = LegacyRsa.rsa_sign m.
Proof.
  change (((cube15 s =? m `mod` 15) = true ↔ s `mod` 15 = cube15 m)
          ∧ 0 ≤ cube15 m < 15 ∧ cube15 (m `mod` 15) = cube15 m).
  split; [|split; [apply cube15_range|apply cube15_mod]].
  rewrite Z.eqb_eq, <- (cube15_mod s), <- (cube15_mod m).
  pose proof (Z.mod_pos_bound s 15 eq_refl) as Hs.
  pose proof (Z.mod_pos_bound m 15 eq_refl) as Hm.
  split; intros H.
  - by rewrite <- H, cube15_involutive.
  - by rewrite H, cube15_involutive.
Qed.

(** X2: [rsa_verify(m, s)] accepts exactly the integers [s] congruent
    modulo [N] to the signature [rsa_sign(m)]; the signature itself lies
    in [[0, N)] and depends on [m] only through [m % N]. *)
Theorem rsa_verify_iff_signature (m s : Z) :
  (LegacyRsa.rsa_verify m s = true ↔ s `mod` LegacyRsa.N = LegacyRsa.rsa_sign m)
  ∧ 0 ≤ LegacyRsa.rsa_sign m < LegacyRsa.N
  ∧ LegacyRsa.rsa_sign (m `mod` LegacyRsa.N) = LegacyRsa.rsa_sign m.
Proof. apply rsa_verify_iff_signature_holds. Qed.

(** ** bridge_sim.py *)

Lemma int16_digits_all_hex s : ∀ acc,
  Bridge.all_hex s = true → ∃ v, Bridge.int16_digits acc s = Ok v.
Proof.
  induction s as [|c s IH]; intros acc H; cbn in *; [by eexists|].
  apply andb_true_iff in H as [Hc Hs]. apply bool_decide_eq_true in Hc.
  destruct Hc as [v ->]. by apply IH.
Qed.

Lemma int16_digits_not_hex s : ∀ acc,
  Bridge.all_hex s = false → Bridge.int16_digits acc s = Raise ValueError.
Proof.
  induction s as [|c s IH]; intros acc H; cbn in *; [done|].
  destruct (Bridge.hex_digit c) as [v|]; [|done].
  rewrite bool_decide_eq_true_2 in H by by eexists. by apply IH.
Qed.

Lemma py_int16_hexdigest_like h :
  (Bridge.hexdigest_like h = true → ∃ v, Bridge.py_int16 h = Ok v)
  ∧ (Bridge.hexdigest_like h = false → Bridge.py_int16 h = Raise ValueError).
Proof.
  destruct h as [|c h]; [done|]. unfold Bridge.hexdigest_like, Bridge.py_int16.
  split; [apply int16_digits_all_hex|apply int16_digits_not_hex].
Qed.

Lemma legacy_sign_verify_roundtrip_holds
    (sha256_hexdigest : string → string) (root_str : string) :
  (Bridge.hexdigest_like (sha256_hexdigest root_str) = true →
   ∃ sig, Bridge.legacy_sign_commit sha256_hexdigest root_str = Ok sig
          ∧ Bridge.legacy_verify_commit sha256_hexdigest root_str
              (Bridge.Atom (Bridge.AInt sig)) = Ok true)
  ∧ (Bridge.hexdigest_like (sha256_hexdigest root_str) = false →
     Bridge.legacy_sign_commit sha256_hexdigest root_str = Raise ValueError
     ∧ ∀ blob, Bridge.legacy_verify_commit sha256_hexdigest root_str blob
               = Raise ValueError).
Proof.
  unfold Bridge.legacy_sign_commit, Bridge.legacy_verify_commit.
  destruct (py_int16_hexdigest_like (sha256_hexdigest root_str)) as [Hok Hbad].
  split; intros H.
  - destruct (Hok H) as [v ->]. cbn. eexists. split; [done|].
    by rewrite rsa_sign_verify_roundtrip_holds.
  - by rewrite (Hbad H).
Qed.



(** X4: what [chainB_verify] turns down without looking at the blob.  A
    proof that does not verify is answered with [False] in every signer
    mode, and a signer mode other than ['legacy'] and ['pq'] is answered
    with [False] for every proof; in both cases the signer blob is not
    examined and nothing is raised. *)
Theorem chainB_verify_rejects
    (sha256_hexdigest : string → string) (root_str : string)
    (proof : list (Z * Z * Z))
    (signer_mode : string) (signer_blob : Bridge.pyobj) :
  QSafe.verify_proof proof = false
  ∨ (signer_mode ≠ "legacy"%string ∧ signer_mode ≠ "pq"%string) →
  Bridge.chainB_verify sha256_hexdigest root_str proof signer_mode signer_blob
  = Ok false.
Proof.
  unfold Bridge.chainB_verify. intros [->|[Hl Hp]]; [done|].
  destruct (QSafe.verify_proof proof); cbn; [|done].
  apply String.eqb_neq in Hl, Hp. by rewrite Hl, Hp.
Qed.

Lemma chainB_verify_rejects_witness :
  Bridge.chainB_verify (λ s, s) "root" [(0, 2, 3)] "pq"
    (Bridge.Tuple [Bridge.ASignature 0; Bridge.ABytes [1]; Bridge.ABytes [2]])
  = Ok false.
Proof.
  apply (chainB_verify_rejects (λ s, s) "root" [(0, 2, 3)] "pq").
  left. reflexivity.
Defined.

(** X5: in mode ['legacy'], for a root whose digest parses and an integer
    blob [s], [chainB_verify] returns [True] exactly when the proof
    verifies and [s] is congruent modulo 15 to the signature
    [legacy_sign_commit] makes for that root; so [s] and [s + 15 k] are
    treated alike. *)
Theorem chainB_verify_legacy_accepts_iff
    (sha256_hexdigest : string → string) (root_str : string) (proof : list (Z * Z * Z)) (sig s k : Z) :
  Bridge.legacy_sign_commit sha256_hexdigest root_str = Ok sig →
  (Bridge.chainB_verify sha256_hexdigest root_str proof "legacy"
     (Bridge.Atom (Bridge.AInt s)) = Ok true
   ↔ QSafe.verify_proof proof = true ∧ s `mod` 15 = sig)
  ∧ Bridge.chainB_verify sha256_hexdigest root_str proof "legacy"
      (Bridge.Atom (Bridge.AInt (s + 15 * k)))
    = Bridge.chainB_verify sha256_hexdigest root_str proof "legacy"
        (Bridge.Atom (Bridge.AInt s)).
Proof.
  unfold Bridge.legacy_sign_commit, Bridge.chainB_verify,
    Bridge.legacy_verify_commit.
  destruct (Bridge.py_int16 (sha256_hexdigest root_str)) as [v|]; [|done].
  cbn. intros [= <-].
  destruct (QSafe.verify_proof proof); cbn.
  - split.
    + split.
      * intros [= H]. split; [done|]. by apply rsa_verify_iff_signature_holds.
      * intros [_ H]. f_equal. by apply rsa_verify_iff_signature_holds.
    + f_equal.
      change (LegacyRsa.rsa_verify ?m ?x) with (cube15 x =? m `mod` 15).
      rewrite <- (cube15_mod (s + 15 * k)).
      by rewrite Z.mul_comm, Z.mod_add, cube15_mod.
  - split; [|done]. split; [done|]. by intros [? _].
Qed.

Lemma chainB_verify_legacy_accepts_iff_witness :
  (Bridge.chainB_verify (λ _, "1f") "root" [(0, 2, 2)] "legacy"
     (Bridge.Atom (Bridge.AInt 16)) = Ok true
   ↔ QSafe.verify_proof [(0, 2, 2)] = true ∧ 16 `mod` 15 = 1)
  ∧ Bridge.chainB_verify (λ _, "1f") "root" [(0, 2, 2)] "legacy"
      (Bridge.Atom (Bridge.AInt (16 + 15 * 2)))
    = Bridge.chainB_verify (λ _, "1f") "root" [(0, 2, 2)] "legacy"
        (Bridge.Atom (Bridge.AInt 16)).
Proof.
  apply (chainB_verify_legacy_accepts_iff (λ _, "1f") "root" [(0, 2, 2)] 1 16 2).
  reflexivity.
Defined.

Lemma prove_fib_ok (m : nat) (indices : list Z) :
  Forall (λ i, 0 ≤ i < Z.of_nat m - 2) indices →
  ∃ proof, MiniStark.prove (fib <$> seq 0 m) indices = Ok proof
           ∧ length proof = length indices
           ∧ MiniStark.verify proof = true.
Proof.
  intros Hidx.
  assert (length (fib <$> seq 0 m) = m) as Hlen
    by (by rewrite length_fmap, length_seq).
  destruct (for_in_prove_ok (fib <$> seq 0 m) indices []) as (proof & Hp & Hall).
  { rewrite Hlen. eapply Forall_impl; [exact Hidx|]. unfold readable.
    intros i Hi. cbn in Hi. lia. }
  exists proof. rewrite prove_unfold. split; [done|].
  split; [symmetry; by eapply Forall2_length|].
  by apply (verify_fib_proof m indices).
Qed.

Lemma relay_build_proof_valid_holds
    (sha3_512_hexdigest : string → string) (rnd : nat → nat)
    (pl : Bridge.payload) :
  ∃ root proof,
    Bridge.relay_build_proof sha3_512_hexdigest rnd pl = Ok (root, proof)
    ∧ QSafe.merkle_root_from_leaves sha3_512_hexdigest
        ((λ v, QSafe.hash512 sha3_512_hexdigest (PyInt v))
           <$> [1; 1; 2; 3; 5; 8; 13; 21; 34; 55; 89; 144]) = Ok root
    ∧ length proof = 4%nat
    ∧ QSafe.verify_proof proof = true.
Proof.
  unfold Bridge.relay_build_proof.
  change (QSafe.gen_fib_trace 12) with (Ok (fib <$> seq 0 12)).
  cbn [mbind result_bind]. unfold QSafe.commit_trace.
  destruct (merkle_root_ok sha3_512_hexdigest
              ((λ v, QSafe.hash512 sha3_512_hexdigest (PyInt v))
                 <$> (fib <$> seq 0 12))) as [root Hroot]; [done|].
  rewrite Hroot. cbn [mbind result_bind].
  rewrite random_challenges_same.
  destruct (random_challenges_ok rnd 12 4) as (idx & Hidx & Hlen & _ & Hall);
    [lia|].
  change (Z.of_nat (length (fib <$> seq 0 12))) with 12.
  rewrite Hidx. cbn [mbind result_bind]. rewrite prove_trace_same.
  destruct (prove_fib_ok 12 idx) as (proof & Hp & Hpl & Hv).
  { eapply Forall_impl; [exact Hall|]. intros i Hi. cbn in Hi. lia. }
  rewrite Hp. exists root, proof. repeat split; [done|lia|done].
Qed.

(** X6: [relay_build_proof] never fails.  Whatever the generator state,
    it returns the Merkle root of the twelve-element Fibonacci trace (the
    same root on every call) together with a proof of four triples that
    [verify_proof] accepts. *)
Theorem relay_build_proof_valid
    (sha3_512_hexdigest : string → string) (rnd : nat → nat)
    (pl : Bridge.payload) :
  ∃ root proof,
    Bridge.relay_build_proof sha3_512_hexdigest rnd pl = Ok (root, proof)
    ∧ QSafe.merkle_root_from_leaves sha3_512_hexdigest
        ((λ v, QSafe.hash512 sha3_512_hexdigest (PyInt v))
           <$> [1; 1; 2; 3; 5; 8; 13; 21; 34; 55; 89; 144]) = Ok root
    ∧ length proof = 4%nat
    ∧ QSafe.verify_proof proof = true.
Proof. apply relay_build_proof_valid_holds. Qed.

(** X7: the legacy flow always ends in acceptance.  If SHA-256 digests
    are non-empty hexadecimal strings, [demo_legacy_flow] returns without
    an exception for every generator state, the [ok] it prints is [True],
    and the returned state holds a proof that verifies and a signature
    that [legacy_verify_commit] accepts for the returned root. *)
Theorem demo_legacy_flow_accepts
    (sha256_hexdigest sha3_512_hexdigest : string → string) (rnd : nat → nat) :
  (∀ s, Bridge.hexdigest_like (sha256_hexdigest s) = true) →
  ∃ st,
    Bridge.demo_legacy_flow sha256_hexdigest sha3_512_hexdigest rnd
    = Ok (true, st)
    ∧ QSafe.verify_proof (Bridge.st_proof st) = true
    ∧ Bridge.legacy_verify_commit sha256_hexdigest (Bridge.st_root st)
        (Bridge.Atom (Bridge.AInt (Bridge.st_sig st))) = Ok true.
Proof.
  intros Hhex. unfold Bridge.demo_legacy_flow.
  destruct (relay_build_proof_valid_holds sha3_512_hexdigest rnd
              Bridge.chainA_create_event) as (root & proof & -> & _ & _ & Hv).
  cbn [mbind result_bind].
  destruct (proj1 (legacy_sign_verify_roundtrip_holds sha256_hexdigest root)
              (Hhex root)) as (sig & Hsig & Hver).
  rewrite Hsig. cbn [mbind result_bind].
  unfold Bridge.chainB_verify. rewrite Hv, Hver. cbn.
  by eexists.
Qed.

Lemma demo_legacy_flow_accepts_witness :
  ∃ st,
    Bridge.demo_legacy_flow (λ _, "1f") (λ s, s) (λ i, 7 * i + 8)%nat
    = Ok (true, st)
    ∧ QSafe.verify_proof (Bridge.st_proof st) = true
    ∧ Bridge.legacy_verify_commit (λ _, "1f") (Bridge.st_root st)
        (Bridge.Atom (Bridge.AInt (Bridge.st_sig st))) = Ok true.
Proof.
  apply (demo_legacy_flow_accepts (λ _, "1f") (λ s, s) (λ i, 7 * i + 8)%nat).
  reflexivity.
Defined.

(** ** The commitment builders, side by side *)

Section CommitFacts.
Variable hash_func : pyval → string.

Lemma mini_commit_while_unfold (leaves : list string) :
  MiniStark.commit_while hash_func leaves =
  if bool_decide (1 < length leaves)%nat
  then leaves' ← fold_level hash_func leaves;
       MiniStark.commit_while hash_func leaves'
  else py_index leaves 0.
Proof. funelim (MiniStark.commit_while hash_func leaves); by_loop_guards. Qed.

Lemma mini_commit_while_build (L : list string) :
  MiniStark.commit_while hash_func L
  = Attack.build_merkle_from_leaves hash_func L.
Proof.
  induction L as [L Hle|L L' Hgt Hstep Hlen IH] using (level_ind hash_func);
    rewrite build_merkle_unfold, mini_commit_while_unfold.
  - by rewrite bool_decide_eq_false_2 by lia.
  - by rewrite bool_decide_eq_true_2, Hstep by done.
Qed.

Lemma build_merkle_ok (L : list string) :
  L ≠ [] → ∃ root, Attack.build_merkle_from_leaves hash_func L = Ok root.
Proof.
  intros Hne. rewrite build_merkle_commit_while.
  destruct (commit_while_final hash_func L Hne) as [root ->]. by exists root.
Qed.

Lemma build_merkle_nil :
  Attack.build_merkle_from_leaves hash_func [] = Raise IndexError.
Proof. done. Qed.

Lemma fold_level_nil : fold_level hash_func [] = Ok [].
Proof. done. Qed.

Lemma pairs_app (L1 L2 : list string) :
  Nat.Even (length L1) →
  pairs hash_func (L1 ++ L2)
  = r1 ← pairs hash_func L1; r2 ← pairs hash_func L2; Ok (r1 ++ r2).
Proof.
  induction L1 as [|a|a b L1 IH] using list_ind2; intros Hev.
  - cbn. by destruct (pairs hash_func L2).
  - destruct Hev as [k Hk]. cbn in Hk. lia.
  - cbn [app pairs]. rewrite IH; cycle 1.
    { destruct Hev as [k Hk]. exists (k - 1)%nat. cbn in Hk. lia. }
    destruct (pairs hash_func L1) as [r1|]; [|done]. cbn.
    by destruct (pairs hash_func L2).
Qed.

Lemma pairs_image (P : string → Prop) (L L' : list string) :
  (∀ x, P (hash_func x)) → pairs hash_func L = Ok L' → Forall P L'.
Proof.
  intros HP. revert L'.
  induction L as [|a|a b L IH] using list_ind2; intros L' H; cbn in H.
  - simplify_eq. constructor.
  - done.
  - destruct (pairs hash_func L) as [r|]; [|done]. simplify_eq/=.
    constructor; [apply HP|by apply IH].
Qed.

Lemma fold_level_image (P : string → Prop) (L L' : list string) :
  (∀ x, P (hash_func x)) → fold_level hash_func L = Ok L' → Forall P L'.
Proof.
  intros HP. unfold fold_level.
  destruct (pad_odd L) as [L1|]; [|done]. cbn. rewrite pair_level_pairs.
  by apply pairs_image.
Qed.

(** A root is a leaf or a value of the hash function. *)
Lemma build_merkle_image (P : string → Prop) (L : list string) root :
  (∀ x, P (hash_func x)) → Forall P L →
  Attack.build_merkle_from_leaves hash_func L = Ok root → P root.
Proof.
  intros HP. revert root.
  induction L as [L Hle|L L' Hgt Hstep Hlen IH] using (level_ind hash_func);
    intros root HL; rewrite build_merkle_unfold.
  - rewrite bool_decide_eq_false_2 by lia.
    destruct L as [|x L]; [by rewrite py_index_nil|].
    rewrite py_index_cons_0. intros [= <-]. by apply Forall_cons in HL as [? _].
  - rewrite bool_decide_eq_true_2, Hstep by done. cbn [mbind result_bind].
    apply IH. by eapply fold_level_image.
Qed.
End CommitFacts.

Lemma merkle_root_build (sha3_512_hexdigest : string → string) L :
  QSafe.merkle_root_from_leaves sha3_512_hexdigest L
  = Attack.build_merkle_from_leaves (QSafe.hash512 sha3_512_hexdigest) L.
Proof.
  induction L as [L Hle|L L' Hgt Hstep Hlen IH]
    using (level_ind (QSafe.hash512 sha3_512_hexdigest));
    rewrite build_merkle_unfold, merkle_root_unfold.
  - by rewrite bool_decide_eq_false_2 by lia.
  - by rewrite bool_decide_eq_true_2, Hstep by done.
Qed.

Lemma commit_roots_agree_holds
    (sha3_512_hexdigest : string → string) (hash_func : pyval → string)
    (trace : list Z) :
  MiniStark.commit_trace hash_func trace
  = fst <$> VulnStark.commit_trace hash_func trace
  ∧ MiniStark.commit_trace (MiniStark.hash512 sha3_512_hexdigest) trace
    = fst <$> QSafe.commit_trace sha3_512_hexdigest trace.
Proof.
  unfold MiniStark.commit_trace, VulnStark.commit_trace, QSafe.commit_trace.
  rewrite !mini_commit_while_build, !build_merkle_commit_while. split; [done|].
  change (MiniStark.hash512 sha3_512_hexdigest)
    with (QSafe.hash512 sha3_512_hexdigest).
  rewrite <- build_merkle_commit_while, merkle_root_build.
  by destruct (Attack.build_merkle_from_leaves _ _).
Qed.

(** X8: the three commitment builders compute one root.  For every hash
    function and every trace, [mini_stark.commit_trace] returns the first
    component of [vuln_stark.commit_trace], and with [hash512] it returns
    the first component of [mini_stark_qsafe.commit_trace] (all of them
    raise alike on the empty trace). *)
Theorem commit_roots_agree
    (sha3_512_hexdigest : string → string) (hash_func : pyval → string)
    (trace : list Z) :
  MiniStark.commit_trace hash_func trace
  = fst <$> VulnStark.commit_trace hash_func trace
  ∧ MiniStark.commit_trace (MiniStark.hash512 sha3_512_hexdigest) trace
    = fst <$> QSafe.commit_trace sha3_512_hexdigest trace.
Proof. apply commit_roots_agree_holds. Qed.





Lemma fold_level_halves_holds (hash_func : pyval → string) (L : list string) :
  L ≠ [] →
  ∃ L', fold_level hash_func L = Ok L'
        ∧ length L' = ((length L + 1) / 2)%nat
        ∧ Forall (λ node, ∃ x, node = hash_func x) L'.
Proof.
  intros Hne. destruct (fold_level_ok hash_func L Hne) as [L' HL'].
  exists L'. split; [done|]. split.
  - unfold fold_level in HL'.
    destruct (pad_odd L) as [L1|] eqn:Hpad; [|done]. cbn in HL'.
    rewrite pair_level_pairs in HL'. apply pairs_length in HL'.
    destruct (pad_odd_length L L1 Hpad) as [_ Hl].
    apply Nat.div_unique with (r := (length L + 1 - 2 * length L')%nat); lia.
  - eapply fold_level_image; [|done]. intros x. by exists x.
Qed.

(** X11: one pass of the loop body halves the level, rounding up: a level
    of [n ≥ 1] nodes is folded, without error, into a level of
    [(n + 1) // 2] nodes, each of them a value of the hash function. *)
Theorem fold_level_halves (hash_func : pyval → string) (L : list string) :
  L ≠ [] →
  ∃ L', fold_level hash_func L = Ok L'
        ∧ length L' = ((length L + 1) / 2)%nat
        ∧ Forall (λ node, ∃ x, node = hash_func x) L'.
Proof. apply fold_level_halves_holds. Qed.

Lemma fold_level_halves_witness :
  ∃ L', fold_level py_str ["a"; "b"; "c"]%string = Ok L'
        ∧ length L' = ((length ["a"; "b"; "c"]%string + 1) / 2)%nat
        ∧ Forall (λ node, ∃ x, node = py_str x) L'.
Proof. apply (fold_level_halves py_str ["a"; "b"; "c"]%string). discriminate. Defined.

Lemma fold_level_app (hash_func : pyval → string) (L1 L2 L1' L2' : list string) :
  Nat.Even (length L1) → Nat.Even (length L2) →
  fold_level hash_func L1 = Ok L1' → fold_level hash_func L2 = Ok L2' →
  fold_level hash_func (L1 ++ L2) = Ok (L1' ++ L2').
Proof.
  intros He1 He2. unfold fold_level.
  assert (Nat.Even (length (L1 ++ L2))) as He.
  { destruct He1 as [k1 Hk1], He2 as [k2 Hk2]. exists (k1 + k2)%nat.
    rewrite length_app. lia. }
  rewrite (pad_odd_even L1 He1), (pad_odd_even L2 He2), (pad_odd_even _ He).
  cbn [mbind result_bind]. rewrite !pair_level_pairs, pairs_app by done.
  by intros -> ->.
Qed.

Lemma merkle_root_singleton (sha3_512_hexdigest : string → string) x :
  QSafe.merkle_root_from_leaves sha3_512_hexdigest [x] = Ok x.
Proof.
  rewrite merkle_root_unfold, bool_decide_eq_false_2 by (cbn; lia).
  apply py_index_cons_0.
Qed.

Lemma merkle_root_halves_aux (sha3_512_hexdigest : string → string) (k : nat) :
  ∀ L1 L2 r1 r2,
    length L1 = (2 ^ k)%nat → length L2 = (2 ^ k)%nat →
    QSafe.merkle_root_from_leaves sha3_512_hexdigest L1 = Ok r1 →
    QSafe.merkle_root_from_leaves sha3_512_hexdigest L2 = Ok r2 →
    QSafe.merkle_root_from_leaves sha3_512_hexdigest (L1 ++ L2)
    = Ok (QSafe.hash512 sha3_512_hexdigest (PyStr (r1 +:+ r2))).
Proof.
  induction k as [|k IH]; intros L1 L2 r1 r2 Hl1 Hl2 Hr1 Hr2.
  - destruct L1 as [|x [|??]]; try done. destruct L2 as [|y [|??]]; try done.
    rewrite merkle_root_singleton in Hr1, Hr2. simplify_eq.
    rewrite merkle_root_unfold. cbn [app length].
    rewrite bool_decide_eq_true_2 by lia.
    unfold fold_level. rewrite (pad_odd_even [r1; r2]) by (by exists 1%nat).
    cbn [mbind result_bind]. rewrite pair_level_pairs. cbn.
    apply merkle_root_singleton.
  - assert (2 ^ S k = 2 * 2 ^ k)%nat as Hpow by (cbn; lia).
    assert (0 < 2 ^ k)%nat as Hpos by (apply Nat.neq_0_lt_0, Nat.pow_nonzero; lia).
    rewrite merkle_root_unfold in Hr1, Hr2.
    rewrite bool_decide_eq_true_2 in Hr1, Hr2 by lia.
    destruct (fold_level _ L1) as [L1'|] eqn:Hf1; [|done].
    destruct (fold_level _ L2) as [L2'|] eqn:Hf2; [|done].
    cbn [mbind result_bind] in Hr1, Hr2.
    assert (Nat.Even (length L1)) as He1 by (exists (2 ^ k)%nat; lia).
    assert (Nat.Even (length L2)) as He2 by (exists (2 ^ k)%nat; lia).
    rewrite merkle_root_unfold, length_app.
    rewrite bool_decide_eq_true_2 by lia.
    rewrite (fold_level_app _ L1 L2 L1' L2' He1 He2 Hf1 Hf2).
    cbn [mbind result_bind].
    destruct (fold_level_halves_holds (QSafe.hash512 sha3_512_hexdigest) L1)
      as (? & Hf1' & Hlen1 & _);
      [by intros ->; cbn in Hl1; lia|].
    destruct (fold_level_halves_holds (QSafe.hash512 sha3_512_hexdigest) L2)
      as (? & Hf2' & Hlen2 & _);
      [by intros ->; cbn in Hl2; lia|].
    rewrite Hf1 in Hf1'. rewrite Hf2 in Hf2'. simplify_eq.
    apply IH; [| |done|done].
    + rewrite Hlen1, Hl1, Hpow.
      replace (2 * 2 ^ k + 1)%nat with (1 + 2 ^ k * 2)%nat by lia.
      by rewrite Nat.div_add.
    + rewrite Hlen2, Hl2, Hpow.
      replace (2 * 2 ^ k + 1)%nat with (1 + 2 ^ k * 2)%nat by lia.
      by rewrite Nat.div_add.
Qed.

(** X12: the root of a full tree is the hash of its two half-roots.  When
    two leaf lists have the same power-of-two length and roots [r1] and
    [r2], [merkle_root_from_leaves] of their concatenation is
    [hash512(r1 + r2)]; the other builders agree with it. *)
Theorem merkle_root_halves
    (sha3_512_hexdigest : string → string) (k : nat)
    (L1 L2 : list string) (r1 r2 : string) :
  length L1 = (2 ^ k)%nat → length L2 = (2 ^ k)%nat →
  QSafe.merkle_root_from_leaves sha3_512_hexdigest L1 = Ok r1 →
  QSafe.merkle_root_from_leaves sha3_512_hexdigest L2 = Ok r2 →
  QSafe.merkle_root_from_leaves sha3_512_hexdigest (L1 ++ L2)
  = Ok (QSafe.hash512 sha3_512_hexdigest (PyStr (r1 +:+ r2)))
  ∧ Attack.build_merkle_from_leaves (QSafe.hash512 sha3_512_hexdigest) (L1 ++ L2)
    = Ok (QSafe.hash512 sha3_512_hexdigest (PyStr (r1 +:+ r2))).
Proof.
  intros Hl1 Hl2 Hr1 Hr2. rewrite <- merkle_root_build.
  split; by apply (merkle_root_halves_aux _ k).
Qed.

Lemma merkle_root_halves_witness :
  QSafe.merkle_root_from_leaves (λ s, ("<" +:+ s +:+ ">")%string)
    (["a"; "b"]%string ++ ["c"; "d"]%string)
  = Ok (QSafe.hash512 (λ s, ("<" +:+ s +:+ ">")%string)
          (PyStr ("<ab>" +:+ "<cd>")))
  ∧ Attack.build_merkle_from_leaves
      (QSafe.hash512 (λ s, ("<" +:+ s +:+ ">")%string))
      (["a"; "b"]%string ++ ["c"; "d"]%string)
    = Ok (QSafe.hash512 (λ s, ("<" +:+ s +:+ ">")%string)
            (PyStr ("<ab>" +:+ "<cd>"))).
Proof.
  apply (merkle_root_halves (λ s, ("<" +:+ s +:+ ">")%string) 1
           ["a"; "b"]%string ["c"; "d"]%string "<ab>" "<cd>");
    reflexivity.
Defined.

(** ** The truncated hash and the attack *)

Lemma substring_0_length (n : nat) (s : string) :
  String.length (substring 0 n s) = Nat.min n (String.length s).
Proof.
  revert s. induction n as [|n IH]; intros [|c s]; cbn; try done.
  by rewrite IH.
Qed.

(** X13: a commitment under [hash_trunc16] is at most four characters
    long.  Every digest [hash_trunc16] returns has at most four characters
    (exactly four when the SHA3 hex digest has at least four), and so has
    the root [vuln_stark.commit_trace] returns for any trace. *)
Theorem hash_trunc16_root_length
    (sha3_512_hexdigest : string → string) (trace : list Z)
    (root : string) (level : list string) :
  VulnStark.commit_trace (VulnStark.hash_trunc16 sha3_512_hexdigest) trace
  = Ok (root, level) →
  (String.length root ≤ 4)%nat
  ∧ ∀ x, String.length (VulnStark.hash_trunc16 sha3_512_hexdigest x)
         = Nat.min 4 (String.length (sha3_512_hexdigest (py_str x))).
Proof.
  intros Hc.
  assert (∀ x, String.length (VulnStark.hash_trunc16 sha3_512_hexdigest x)
               = Nat.min 4 (String.length (sha3_512_hexdigest (py_str x))))
    as Hlen by (intros x; apply substring_0_length).
  split; [|done].
  set (h := VulnStark.hash_trunc16 sha3_512_hexdigest) in *.
  apply (build_merkle_image h (λ s, String.length s ≤ 4)%nat
           ((λ v, h (PyInt v)) <$> trace)).
  - intros x. rewrite Hlen. lia.
  - apply Forall_fmap, Forall_forall. intros v _. cbn. rewrite Hlen. lia.
  - rewrite build_merkle_commit_while. unfold VulnStark.commit_trace in Hc.
    by rewrite Hc.
Qed.

Lemma hash_trunc16_root_length_witness :
  (String.length "1111" ≤ 4)%nat
  ∧ ∀ x, String.length (VulnStark.hash_trunc16 (λ s, s +:+ s +:+ s +:+ s) x)
         = Nat.min 4 (String.length ((λ s, s +:+ s +:+ s +:+ s) (py_str x))).
Proof.
  apply (hash_trunc16_root_length (λ s, s +:+ s +:+ s +:+ s) [1; 1; 2]
           "1111" ["1111"]%string).
  reflexivity.
Defined.

Section AttackFacts.
Variable sha3_512_hexdigest : string → string.
Abbreviation h16 := (VulnStark.hash_trunc16 sha3_512_hexdigest).
Abbreviation leaves_of trace := ((λ v, h16 (PyInt v)) <$> trace).

Lemma recompute_unfold (trace : list Z) (i : Z) (new_value : pyval) :
  Attack.recompute_root_with_new_leaf sha3_512_hexdigest trace i new_value
  = p ← norm_index (length trace) i;
    root ← Attack.build_merkle_from_leaves h16
              (<[p:=h16 new_value]> (leaves_of trace));
    Ok (root, <[p:=h16 new_value]> (leaves_of trace)).
Proof.
  unfold Attack.recompute_root_with_new_leaf, py_setitem.
  rewrite length_fmap. by destruct (norm_index (length trace) i).
Qed.

Lemma norm_index_in_range (n : nat) (i : Z) :
  - Z.of_nat n ≤ i < Z.of_nat n → ∃ p, norm_index n i = Ok p ∧ (p < n)%nat.
Proof.
  intros Hi. destruct (Z.lt_ge_cases i 0).
  - rewrite norm_index_neg by lia. eexists. split; [done|lia].
  - rewrite norm_index_nonneg by lia. eexists. split; [done|lia].
Qed.

Lemma norm_index_out_of_range (n : nat) (i : Z) :
  ¬ (- Z.of_nat n ≤ i < Z.of_nat n) → norm_index n i = Raise IndexError.
Proof.
  intros Hi. destruct (Z.lt_ge_cases i (- Z.of_nat n)).
  - by apply norm_index_low.
  - apply norm_index_high. lia.
Qed.

Lemma recompute_ok (trace : list Z) (i : Z) (new_value : pyval) :
  - Z.of_nat (length trace) ≤ i < Z.of_nat (length trace) →
  ∃ p root,
    norm_index (length trace) i = Ok p ∧ (p < length trace)%nat
    ∧ Attack.recompute_root_with_new_leaf sha3_512_hexdigest trace i new_value
      = Ok (root, <[p:=h16 new_value]> (leaves_of trace)).
Proof.
  intros Hi. destruct (norm_index_in_range _ i Hi) as (p & Hp & Hlt).
  destruct (build_merkle_ok h16 (<[p:=h16 new_value]> (leaves_of trace)))
    as [root Hroot].
  { intros Hnil. apply (f_equal length) in Hnil.
    rewrite length_insert, length_fmap in Hnil. cbn in Hnil. lia. }
  exists p, root. rewrite recompute_unfold, Hp. cbn [mbind result_bind].
  by rewrite Hroot.
Qed.
End AttackFacts.



Lemma recompute_root_collision_holds
    (sha3_512_hexdigest : string → string)
    (trace : list Z) (i : Z) (new_value other_value : pyval) (v : Z) :
  (VulnStark.hash_trunc16 sha3_512_hexdigest new_value
   = VulnStark.hash_trunc16 sha3_512_hexdigest other_value →
   Attack.recompute_root_with_new_leaf sha3_512_hexdigest trace i new_value
   = Attack.recompute_root_with_new_leaf sha3_512_hexdigest trace i other_value)
  ∧ (py_index trace i = Ok v →
     VulnStark.hash_trunc16 sha3_512_hexdigest new_value
     = VulnStark.hash_trunc16 sha3_512_hexdigest (PyInt v) →
     ∃ root level,
       VulnStark.commit_trace (VulnStark.hash_trunc16 sha3_512_hexdigest) trace
       = Ok (root, level)
       ∧ Attack.recompute_root_with_new_leaf sha3_512_hexdigest trace i new_value
         = Ok (root, (λ v, VulnStark.hash_trunc16 sha3_512_hexdigest (PyInt v))
                       <$> trace)).
Proof.
  split.
  - intros Heq. by rewrite !recompute_unfold, Heq.
  - intros Hv Heq.
    set (h := VulnStark.hash_trunc16 sha3_512_hexdigest) in *.
    destruct (commit_while_final h ((λ v, h (PyInt v)) <$> trace))
      as [root Hroot].
    { destruct trace; [|done]. by rewrite py_index_nil in Hv. }
    exists root, [root]. split; [exact Hroot|].
    unfold Attack.recompute_root_with_new_leaf. fold h. rewrite Heq.
    rewrite (py_setitem_same (λ v, h (PyInt v)) trace i v Hv).
    cbn [mbind result_bind].
    by rewrite build_merkle_commit_while, Hroot.
Qed.



Section SearchFacts.
Variable sha3_512_hexdigest : string → string.
Variable trace : list Z.
Variable idx : Z.
Variable orig_root : string.
Hypothesis idx_in_range :
  - Z.of_nat (length trace) ≤ idx < Z.of_nat (length trace).

(** The root the attack computes for one candidate. *)
Definition new_root (cand : Z) : result string :=
  fst <$> Attack.recompute_root_with_new_leaf sha3_512_hexdigest trace idx
            (PyInt cand).

Lemma search_loop_range (len : nat) : ∀ lo : Z,
  ∃ found,
    Attack.search_loop sha3_512_hexdigest trace idx orig_root
      (seqZ lo (Z.of_nat len)) = Ok found
    ∧ match found with
      | Some c =>
          lo ≤ c < lo + Z.of_nat len ∧ new_root c = Ok orig_root
          ∧ ∀ c', lo ≤ c' < c → new_root c' ≠ Ok orig_root
      | None => ∀ c', lo ≤ c' < lo + Z.of_nat len → new_root c' ≠ Ok orig_root
      end.
Proof.
  induction len as [|len IH]; intros lo.
  { exists None. split; [done|]. intros c' Hc'. lia. }
  rewrite seqZ_cons by lia. cbn [Attack.search_loop].
  replace (Z.pred (Z.of_nat (S len))) with (Z.of_nat len) by lia.
  destruct (recompute_ok sha3_512_hexdigest trace idx (PyInt lo) idx_in_range)
    as (p & root & _ & _ & Hrec).
  rewrite Hrec. cbn [mbind result_bind].
  assert (new_root lo = Ok root) as Hnew by (unfold new_root; by rewrite Hrec).
  destruct (String.eqb_spec root orig_root) as [->|Hne].
  - exists (Some lo). split; [done|]. split; [lia|]. split; [done|].
    intros c' Hc'. lia.
  - destruct (IH (Z.succ lo)) as (found & -> & Hspec).
    exists found. split; [done|].
    assert (new_root lo ≠ Ok orig_root) as Hlo by (rewrite Hnew; congruence).
    destruct found as [c|].
    + destruct Hspec as (Hc & Hroot & Hmin). split; [lia|]. split; [done|].
      intros c' Hc'. destruct (decide (c' = lo)) as [->|?]; [done|].
      apply Hmin. lia.
    + intros c' Hc'. destruct (decide (c' = lo)) as [->|?]; [done|].
      apply Hspec. lia.
Qed.
End SearchFacts.

Lemma attack_search_first_match_holds
    (sha3_512_hexdigest : string → string)
    (trace : list Z) (idx max_try v : Z) :
  py_index trace idx = Ok v →
  ∃ found orig_root level,
    VulnStark.commit_trace (VulnStark.hash_trunc16 sha3_512_hexdigest) trace
    = Ok (orig_root, level)
    ∧ Attack.attack sha3_512_hexdigest trace idx max_try
      = Ok (found, Attack.py_not found)
    ∧ (∀ c, found = Some c →
         0 ≤ c < max_try
         ∧ new_root sha3_512_hexdigest trace idx c = Ok orig_root
         ∧ ∀ c', 0 ≤ c' < c →
             new_root sha3_512_hexdigest trace idx c' ≠ Ok orig_root)
    ∧ (found = None →
       ∀ c, 0 ≤ c < max_try →
         new_root sha3_512_hexdigest trace idx c ≠ Ok orig_root)
    ∧ (0 ≤ v < max_try → ∃ c, found = Some c ∧ c ≤ v)
    ∧ (Attack.py_not found = true ↔ found = None ∨ found = Some 0).
Proof.
  intros Hv.
  assert (- Z.of_nat (length trace) ≤ idx < Z.of_nat (length trace)) as Hidx.
  { destruct (decide (- Z.of_nat (length trace) ≤ idx < Z.of_nat (length trace)))
      as [?|Hout]; [done|].
    unfold py_index in Hv. by rewrite norm_index_out_of_range in Hv. }
  destruct (recompute_root_collision_holds sha3_512_hexdigest trace idx
              (PyInt v) (PyInt v) v) as [_ Hcol].
  destruct (Hcol Hv eq_refl) as (orig_root & level & Hcommit & Hself).
  assert (new_root sha3_512_hexdigest trace idx v = Ok orig_root) as Hvroot
    by (unfold new_root; by rewrite Hself).
  destruct (search_loop_range sha3_512_hexdigest trace idx orig_root Hidx
              (Z.to_nat max_try) 0) as (found & Hfound & Hspec).
  assert (py_range 0 max_try = seqZ 0 (Z.of_nat (Z.to_nat max_try))) as Hcands.
  { unfold py_range, seqZ. do 2 f_equal. lia. }
  exists found, orig_root, level. split; [done|]. split.
  { unfold Attack.attack. rewrite Hcommit. cbn [mbind result_bind].
    by rewrite Hcands, Hfound. }
  split; [|split; [|split]].
  - intros c ->. destruct Hspec as (Hc & Hroot & Hmin). split; [lia|done].
  - intros ->. intros c Hc. apply Hspec. lia.
  - intros Hvr. destruct found as [c|].
    + exists c. split; [done|]. destruct Hspec as (Hc & Hroot & Hmin).
      destruct (decide (c ≤ v)) as [?|Hgt]; [done|].
      exfalso. apply (Hmin v); [lia|done].
    + exfalso. apply (Hspec v); [lia|done].
  - destruct found as [c|]; cbn.
    + rewrite Z.eqb_eq. split; [intros ->; by right|]. by intros [?|[= ->]].
    + split; [by left|done].
Qed.



(** X17: the script itself always stops within the first four
    candidates.  With [N = 10] and [idx = 3] the attacked value is
    [trace[3] = 3], which is among the candidates [0 .. 199999] and
    reproduces the root; so for every hash function [found] is some
    [c ≤ 3], and "No collision found" is printed as well exactly when
    [c = 0]. *)
Theorem attack_main_stops_by_3 (sha3_512_hexdigest : string → string) :
  ∃ c, Attack.main sha3_512_hexdigest = Ok (Some c, c =? 0) ∧ 0 ≤ c ≤ 3.
Proof.
  unfold Attack.main.
  change (VulnStark.gen_fib_trace 10)
    with (Ok [1; 1; 2; 3; 5; 8; 13; 21; 34; 55]).
  cbn [mbind result_bind].
  destruct (attack_search_first_match_holds sha3_512_hexdigest
              [1; 1; 2; 3; 5; 8; 13; 21; 34; 55] 3 200000 3 eq_refl)
    as (found & orig_root & level & _ & Hattack & Hsome & _ & Hhit & _).
  destruct Hhit as (c & -> & Hc); [lia|].
  exists c. split; [done|]. destruct (Hsome c eq_refl) as [? _]. lia.
Qed.

(** ** More on the proof builder and the verifier *)

(** The recurrence at one index, read with Python subscripts. *)
Definition recurrence_at (trace : list Z) (i : Z) : Prop :=
  ∃ a b c, py_index trace i = Ok a ∧ py_index trace (i + 1) = Ok b
           ∧ py_index trace (i + 2) = Ok c ∧ a + b = c.

Lemma prove_answers (trace : list Z) (indices : list Z) :
  Forall (readable (length trace)) indices →
  ∃ proof,
    MiniStark.prove trace indices = Ok proof
    ∧ (λ t, t.1.1) <$> proof = indices
    ∧ (MiniStark.verify proof = true ↔ Forall (recurrence_at trace) indices).
Proof.
  intros Hall. rewrite prove_unfold.
  destruct (for_in_prove_ok trace indices [] Hall) as (proof & -> & Hproof).
  exists proof. split; [done|]. rewrite verify_true_iff. clear Hall.
  induction Hproof as [|i t indices proof (a & b & c & Ha & Hb & Hc & ->) _
                         [IH1 IH2]]; [by split|].
  split; [cbn; by rewrite IH1|].
  rewrite !Forall_cons, IH2. unfold triple_ok at 1. cbn.
  split; intros [H1 H2]; (split; [|done]).
  - by exists a, b, c.
  - destruct H1 as (a' & b' & c' & ? & ? & ? & ?). congruence.
Qed.

(** X18: the spot check is exact for any trace.  When every index lies in
    [[-n, n-2)], [prove] returns one triple per index, in order and
    tagged with that index, and [verify] accepts the proof exactly when
    [trace[i] + trace[i+1] = trace[i+2]] holds at every supplied index. *)
Theorem prove_verify_iff_recurrence (trace : list Z) (indices : list Z) :
  Forall (λ i, - Z.of_nat (length trace) ≤ i < Z.of_nat (length trace) - 2)
         indices →
  ∃ proof,
    MiniStark.prove trace indices = Ok proof
    ∧ QSafe.prove_trace trace indices = Ok proof
    ∧ (λ t, t.1.1) <$> proof = indices
    ∧ (MiniStark.verify proof = true ↔ Forall (recurrence_at trace) indices).
Proof.
  intros Hall. destruct (prove_answers trace indices Hall) as (proof & ? & ? & ?).
  by exists proof.
Qed.

Lemma prove_verify_iff_recurrence_witness :
  ∃ proof,
    MiniStark.prove [1; 1; 2; 4; 6] [0; 1; -3] = Ok proof
    ∧ QSafe.prove_trace [1; 1; 2; 4; 6] [0; 1; -3] = Ok proof
    ∧ (λ t, t.1.1) <$> proof = [0; 1; -3]
    ∧ (MiniStark.verify proof = true
       ↔ Forall (recurrence_at [1; 1; 2; 4; 6]) [0; 1; -3]).
Proof.
  apply (prove_verify_iff_recurrence [1; 1; 2; 4; 6] [0; 1; -3]).
  repeat constructor; cbn; lia.
Defined.

Lemma verify_app (p q : list (Z * Z * Z)) :
  MiniStark.verify (p ++ q) = MiniStark.verify p && MiniStark.verify q.
Proof.
  induction p as [|[[i lhs] rhs] p IH]; cbn; [done|].
  by destruct (lhs =? rhs).
Qed.

(** X19: the verifier is insensitive to order and grouping.  The verdict
    on a concatenation is the conjunction of the verdicts on the parts,
    and any rearrangement of a proof gets the verdict of the proof. *)
Theorem verify_order_insensitive (p q : list (Z * Z * Z)) :
  MiniStark.verify (p ++ q) = MiniStark.verify p && MiniStark.verify q
  ∧ (p ≡ₚ q → MiniStark.verify p = MiniStark.verify q)
  ∧ QSafe.verify_proof (p ++ q)
    = QSafe.verify_proof p && QSafe.verify_proof q.
Proof.
  split; [apply verify_app|]. split; [|apply verify_app].
  intros Hperm. apply eq_true_iff_eq. rewrite !verify_true_iff.
  by rewrite Hperm.
Qed.

Lemma verify_order_insensitive_witness :
  MiniStark.verify [(0, 2, 2); (4, 11, 13)]
  = MiniStark.verify [(4, 11, 13); (0, 2, 2)].
Proof.
  apply (proj1 (proj2 (verify_order_insensitive
                         [(0, 2, 2); (4, 11, 13)] [(4, 11, 13); (0, 2, 2)]))).
  apply Permutation_swap.
Defined.

Lemma for_in_app {A S} (xs ys : list A) (body : S → A → result S) (s : S) :
  for_in (xs ++ ys) body s = s' ← for_in xs body s; for_in ys body s'.
Proof.
  revert s. induction xs as [|x xs IH]; intros s; cbn; [done|].
  destruct (body s x); cbn; [apply IH|done].
Qed.

Lemma for_in_prove_acc trace indices acc :
  for_in indices (prove_body trace) acc
  = proof ← for_in indices (prove_body trace) []; Ok (acc ++ proof).
Proof.
  revert acc. induction indices as [|i indices IH]; intros acc; cbn [for_in].
  { cbn. by rewrite app_nil_r. }
  destruct (decide (readable (length trace) i)) as [Hr|Hr]; cycle 1.
  { by rewrite !prove_body_raise. }
  destruct (prove_body_ok trace acc i Hr) as (a & b & c & Ha & Hb & Hc & ->).
  assert (prove_body trace [] i = Ok [(i, a + b, c)]) as ->
    by (unfold prove_body; by rewrite Ha, Hb, Hc).
  cbn [mbind result_bind app].
  rewrite (IH (acc ++ _)), (IH [_]).
  destruct (for_in indices (prove_body trace) []); cbn; [|done].
  by rewrite <- app_assoc.
Qed.

(** X20: proofs are built index by index.  [prove] on a concatenation of
    index lists is the concatenation of the proofs for the parts, and it
    fails if either part fails (the first failure wins). *)
Theorem prove_app (trace : list Z) (idx1 idx2 : list Z) :
  MiniStark.prove trace (idx1 ++ idx2)
  = p1 ← MiniStark.prove trace idx1;
    p2 ← MiniStark.prove trace idx2;
    Ok (p1 ++ p2).
Proof.
  rewrite !prove_unfold, for_in_app.
  destruct (for_in idx1 (prove_body trace) []) as [p1|]; [|done].
  cbn [mbind result_bind]. apply for_in_prove_acc.
Qed.

(** ** More on the trace generator *)

Lemma fib_pos n : 1 ≤ fib n.
Proof.
  assert (1 ≤ fib n ∧ 1 ≤ fib (S n)) as [H _]; [|done].
  induction n as [|n [IH1 IH2]]; [done|]. split; [done|]. rewrite fib_rec. lia.
Qed.

Lemma fib_mono n : fib n ≤ fib (S n).
Proof. destruct n; [done|]. rewrite fib_rec. pose proof (fib_pos n). lia. Qed.

(** X21: asking for a longer trace only appends.  For [n ≤ m] the trace
    of length [n] is a prefix of the trace of length [m]; every entry is
    at least 1 and no entry is smaller than the one before it. *)
Theorem gen_fib_trace_prefix (n m : Z) :
  n ≤ m →
  ∃ short long,
    MiniStark.gen_fib_trace n = Ok short
    ∧ MiniStark.gen_fib_trace m = Ok long
    ∧ short `prefix_of` long
    ∧ Forall (λ v, 1 ≤ v) long
    ∧ ∀ (i : nat) a b, long !! i = Some a → long !! S i = Some b → a ≤ b.
Proof.
  intros Hnm. rewrite !gen_fib_trace_fib.
  set (k := Z.to_nat (Z.max n 2)). set (l := Z.to_nat (Z.max m 2)).
  assert (k ≤ l)%nat as Hkl by lia.
  exists (fib <$> seq 0 k), (fib <$> seq 0 l). repeat split.
  - exists (fib <$> seq k (l - k)). rewrite <- fmap_app, <- seq_app.
    do 2 f_equal. lia.
  - apply Forall_fmap, Forall_forall. intros i _. apply fib_pos.
  - intros i a b Ha Hb.
    apply list_lookup_fmap_Some in Ha as (x & -> & Hx).
    apply list_lookup_fmap_Some in Hb as (y & -> & Hy).
    apply lookup_seq in Hx as [-> _]. apply lookup_seq in Hy as [-> _].
    apply fib_mono.
Qed.

Lemma gen_fib_trace_prefix_witness :
  ∃ short long,
    MiniStark.gen_fib_trace 4 = Ok short
    ∧ MiniStark.gen_fib_trace 7 = Ok long
    ∧ short `prefix_of` long
    ∧ Forall (λ v, 1 ≤ v) long
    ∧ ∀ (i : nat) a b, long !! i = Some a → long !! S i = Some b → a ≤ b.
Proof. apply (gen_fib_trace_prefix 4 7). lia. Defined.

(** ** shor_demo.py: the integer helpers *)

Lemma shor_gcd_unfold (a b : Z) :
  ShorDemo.gcd a b = if b =? 0 then a else ShorDemo.gcd b (a `mod` b).
Proof.
  funelim (ShorDemo.gcd a b);
    repeat match goal with H : (_ =? _) = _ |- _ => rewrite H end; done.
Qed.

Lemma shor_gcd_abs (a b : Z) : Z.abs (ShorDemo.gcd a b) = Z.gcd a b.
Proof.
  remember (Z.abs_nat b) as n eqn:Hn. revert a b Hn.
  induction n as [n IH] using lt_wf_ind. intros a b ->.
  rewrite shor_gcd_unfold. destruct (Z.eqb_spec b 0) as [->|Hb].
  - by rewrite Z.gcd_0_r.
  - rewrite <- (Z.gcd_comm b a), <- (Z.gcd_mod a b Hb), (Z.gcd_comm _ b).
    apply (IH (Z.abs_nat (a `mod` b))); [|done].
    pose proof (Z.mod_pos_bound a b). pose proof (Z.mod_neg_bound a b). lia.
Qed.

Lemma shor_gcd_nonneg (a b : Z) : 0 ≤ a → 0 ≤ b → 0 ≤ ShorDemo.gcd a b.
Proof.
  remember (Z.abs_nat b) as n eqn:Hn. revert a b Hn.
  induction n as [n IH] using lt_wf_ind. intros a b -> Ha Hb.
  rewrite shor_gcd_unfold. destruct (Z.eqb_spec b 0) as [->|Hb0]; [done|].
  pose proof (Z.mod_pos_bound a b).
  apply (IH (Z.abs_nat (a `mod` b))); [lia|done|done|lia].
Qed.

(** X22: [gcd] is Euclid's algorithm up to sign.  The absolute value of
    its result is the greatest common divisor of the arguments; for
    non-negative arguments the result itself is; and with [b = 0] the
    first argument is returned unchanged, negative or not. *)
Theorem shor_gcd_correct (a b : Z) :
  Z.abs (ShorDemo.gcd a b) = Z.gcd a b
  ∧ (0 ≤ a → 0 ≤ b → ShorDemo.gcd a b = Z.gcd a b)
  ∧ ShorDemo.gcd a 0 = a
  ∧ (ShorDemo.gcd a b | a) ∧ (ShorDemo.gcd a b | b).
Proof.
  pose proof (shor_gcd_abs a b) as Habs.
  split; [done|]. split; [|split; [by rewrite shor_gcd_unfold|]].
  - intros Ha Hb. pose proof (shor_gcd_nonneg a b Ha Hb). lia.
  - split; apply Z.divide_abs_l; rewrite Habs;
      [apply Z.gcd_divide_l|apply Z.gcd_divide_r].
Qed.

Lemma shor_gcd_correct_witness : ShorDemo.gcd 12 18 = Z.gcd 12 18.
Proof.
  apply (proj1 (proj2 (shor_gcd_correct 12 18))); lia.
Defined.

Lemma mod_exp_loop_unfold (m r b e : Z) :
  ShorDemo.mod_exp_loop m r b e =
  if 0 <? e
  then ShorDemo.mod_exp_loop m
         (if e `mod` 2 =? 1 then (r * b) `mod` m else r)
         ((b * b) `mod` m) (Z.shiftr e 1)
  else r.
Proof.
  funelim (ShorDemo.mod_exp_loop m r b e);
    repeat match goal with H : (_ <? _) = _ |- _ => rewrite H end; done.
Qed.

Lemma mod_exp_loop_power (m : Z) (n : nat) : ∀ r b e,
  0 < m → Z.to_nat e = n →
  ShorDemo.mod_exp_loop m r b e = if 0 <? e then (r * b ^ e) `mod` m else r.
Proof.
  induction n as [n IH] using lt_wf_ind. intros r b e Hm Hn.
  rewrite mod_exp_loop_unfold. destruct (Z.ltb_spec 0 e) as [He|He]; [|done].
  rewrite Z.shiftr_div_pow2 by lia. change (2 ^ 1) with 2.
  pose proof (Z.div_mod e 2 ltac:(lia)) as Hdiv.
  pose proof (Z.mod_pos_bound e 2 ltac:(lia)) as Hbit.
  set (q := e `div` 2) in *.
  assert (0 ≤ q) as Hq by (apply Z.div_pos; lia).
  rewrite (IH (Z.to_nat q)); [|lia|done|done].
  assert (b ^ e = b ^ (e `mod` 2) * (b * b) ^ q) as Hpow.
  { rewrite Hdiv at 1. rewrite Z.add_comm, Z.pow_add_r, Z.pow_mul_r by lia.
    by rewrite Z.pow_2_r. }
  destruct (Z.ltb_spec 0 q) as [Hq0|Hq0].
  - rewrite <- Z.mul_mod_idemp_r, <- Zpower_mod, Z.mul_mod_idemp_r by lia.
    rewrite Hpow.
    destruct (Z.eqb_spec (e `mod` 2) 1) as [->|Hb0].
    + rewrite Z.mul_mod_idemp_l by lia. f_equal. rewrite Z.pow_1_r. lia.
    + replace (e `mod` 2) with 0 by lia. f_equal. lia.
  - assert (q = 0) as -> by lia. assert (e = 1) as -> by lia.
    cbn. by rewrite Z.pow_1_r.
Qed.

Lemma mod_exp_power (base exp modulus : Z) :
  0 < modulus → 0 < exp →
  ShorDemo.mod_exp base exp modulus = ShorDemo.Val (base ^ exp `mod` modulus).
Proof.
  intros Hm He. unfold ShorDemo.mod_exp.
  destruct (Z.eqb_spec modulus 0); [lia|].
  rewrite (mod_exp_loop_power modulus (Z.to_nat exp)) by done.
  destruct (Z.ltb_spec 0 exp); [|lia].
  by rewrite Z.mul_1_l, <- Zpower_mod.
Qed.

(** X23: [mod_exp] computes modular powers for a positive modulus and a
    positive exponent; it raises [ZeroDivisionError] for the modulus 0;
    and for an exponent [≤ 0] the loop is skipped and the result is 1
    (also with the modulus 1, where the residue of [base ** 0] is 0). *)
Theorem mod_exp_correct (base exp modulus : Z) :
  (modulus = 0 → ShorDemo.mod_exp base exp modulus = ShorDemo.ZeroDivisionError)
  ∧ (0 < modulus → 0 < exp →
     ShorDemo.mod_exp base exp modulus = ShorDemo.Val (base ^ exp `mod` modulus))
  ∧ (modulus ≠ 0 → exp ≤ 0 →
     ShorDemo.mod_exp base exp modulus = ShorDemo.Val 1).
Proof.
  unfold ShorDemo.mod_exp. repeat split.
  - by intros ->.
  - fold (ShorDemo.mod_exp base exp modulus). apply mod_exp_power.
  - intros Hm He. destruct (Z.eqb_spec modulus 0); [done|].
    rewrite mod_exp_loop_unfold. by destruct (Z.ltb_spec 0 exp); [lia|].
Qed.

Lemma mod_exp_correct_witness :
  ShorDemo.mod_exp 7 13 15 = ShorDemo.Val (7 ^ 13 `mod` 15).
Proof.
  apply (proj1 (proj2 (mod_exp_correct 7 13 15))); lia.
Defined.

Lemma find_period_loop_range (a N : Z) (len : nat) : ∀ lo : Z,
  1 ≤ lo → 0 < N →
  ∃ res,
    ShorDemo.find_period_loop a N (seqZ lo (Z.of_nat len)) = ShorDemo.Val res
    ∧ match res with
      | Some r => lo ≤ r < lo + Z.of_nat len ∧ a ^ r `mod` N = 1
                  ∧ ∀ r', lo ≤ r' < r → a ^ r' `mod` N ≠ 1
      | None => ∀ r', lo ≤ r' < lo + Z.of_nat len → a ^ r' `mod` N ≠ 1
      end.
Proof.
  induction len as [|len IH]; intros lo Hlo HN.
  { exists None. split; [done|]. intros r' Hr'. lia. }
  rewrite seqZ_cons by lia. cbn [ShorDemo.find_period_loop].
  replace (Z.pred (Z.of_nat (S len))) with (Z.of_nat len) by lia.
  rewrite mod_exp_power by lia.
  destruct (Z.eqb_spec (a ^ lo `mod` N) 1) as [Heq|Hne].
  - exists (Some lo). split; [done|]. split; [lia|]. split; [done|].
    intros r' Hr'. lia.
  - destruct (IH (Z.succ lo)) as (res & -> & Hspec); [lia|done|].
    exists res. split; [done|]. destruct res as [r|].
    + destruct Hspec as (Hr & Hone & Hmin). split; [lia|]. split; [done|].
      intros r' Hr'. destruct (decide (r' = lo)) as [->|?]; [done|].
      apply Hmin. lia.
    + intros r' Hr'. destruct (decide (r' = lo)) as [->|?]; [done|].
      apply Hspec. lia.
Qed.

Lemma find_period_classical_least_holds (a N : Z) :
  ∃ res,
    ShorDemo.find_period_classical a N = ShorDemo.Val res
    ∧ match res with
      | Some r => 1 ≤ r < N ∧ a ^ r `mod` N = 1
                  ∧ ∀ r', 1 ≤ r' < r → a ^ r' `mod` N ≠ 1
      | None => ∀ r', 1 ≤ r' < N → a ^ r' `mod` N ≠ 1
      end.
Proof.
  unfold ShorDemo.find_period_classical, py_range.
  destruct (Z.le_gt_cases N 1) as [HN|HN].
  - rewrite seqZ_nil by lia. exists None. split; [done|]. intros r' Hr'. lia.
  - destruct (find_period_loop_range a N (Z.to_nat (N - 1)) 1)
      as (res & Hres & Hspec); [done|lia|].
    rewrite Z2Nat.id in Hres by lia. exists res. split; [done|].
    destruct res as [r|].
    + destruct Hspec as (Hr & Hone & Hmin). split; [lia|done].
    + intros r' Hr'. apply Hspec. lia.
Qed.

(** X24: [find_period_classical] returns the least period below [N].  It
    never raises.  If it returns [r] then [1 ≤ r < N], [a ** r % N == 1]
    and no smaller positive exponent has that property; if it returns
    [None] no exponent in [[1, N)] has it, which is always the case for
    [N ≤ 1], where the range is empty. *)
Theorem find_period_classical_least (a N : Z) :
  ∃ res,
    ShorDemo.find_period_classical a N = ShorDemo.Val res
    ∧ match res with
      | Some r => 1 ≤ r < N ∧ a ^ r `mod` N = 1
                  ∧ ∀ r', 1 ≤ r' < r → a ^ r' `mod` N ≠ 1
      | None => ∀ r', 1 ≤ r' < N → a ^ r' `mod` N ≠ 1
      end.
Proof. apply find_period_classical_least_holds. Qed.



(** ** simple_demo.py: the three-party sharing *)

Section MpcFacts.
Variable rnd : nat → nat.

(** The shares dealt for the bits, from draw [k] on. *)
Fixpoint dealt (k : nat) (bits : list Z) : list (Z * Z * Z) :=
  match bits with
  | [] => []
  | bit :: bits' =>
      let s1 := SimpleMPC.randint01 rnd k in
      let s2 := SimpleMPC.randint01 rnd (S k) in
      (s1, s2, Z.lxor (Z.lxor bit s1) s2) :: dealt (S (S k)) bits'
  end.

Lemma py_index_1 {A} (a b : A) l : py_index (a :: b :: l) 1 = Ok b.
Proof. apply (py_index_nonneg (a :: b :: l) 1). done. Qed.

Lemma py_index_2 {A} (a b c : A) l : py_index (a :: b :: c :: l) 2 = Ok c.
Proof. apply (py_index_nonneg (a :: b :: c :: l) 2). done. Qed.

Lemma share_bit_rows (r0 r1 r2 : list Z) (k : nat) (bit : Z) :
  SimpleMPC.share_bit rnd ([r0; r1; r2], k) bit
  = Ok ([r0 ++ [SimpleMPC.randint01 rnd k];
         r1 ++ [SimpleMPC.randint01 rnd (S k)];
         r2 ++ [Z.lxor (Z.lxor bit (SimpleMPC.randint01 rnd k))
                       (SimpleMPC.randint01 rnd (S k))]], S (S k)).
Proof. done. Qed.

Lemma for_in_share_bit (bits : list Z) : ∀ (r0 r1 r2 : list Z) (k : nat),
  for_in bits (SimpleMPC.share_bit rnd) ([r0; r1; r2], k)
  = Ok ([r0 ++ ((λ t, t.1.1) <$> dealt k bits);
         r1 ++ ((λ t, t.1.2) <$> dealt k bits);
         r2 ++ ((λ t, t.2) <$> dealt k bits)], (k + 2 * length bits)%nat).
Proof.
  induction bits as [|bit bits IH]; intros r0 r1 r2 k; cbn [for_in].
  { cbn. rewrite !app_nil_r. do 2 f_equal. lia. }
  rewrite share_bit_rows. cbn [mbind result_bind]. rewrite IH.
  cbn [dealt fmap list_fmap length]. rewrite <- !app_assoc. cbn.
  do 2 f_equal. lia.
Qed.

Lemma secret_share_dealt (bits : list Z) :
  SimpleMPC.secret_share rnd bits
  = Ok [(λ t, t.1.1) <$> dealt 0 bits;
        (λ t, t.1.2) <$> dealt 0 bits;
        (λ t, t.2) <$> dealt 0 bits].
Proof.
  unfold SimpleMPC.secret_share.
  change ((λ _, []) <$> py_range 0 SimpleMPC.n_parties)
    with ([[]; []; []] : list (list Z)).
  by rewrite for_in_share_bit.
Qed.




End MpcFacts.


Ltac read_subscripts :=
  repeat (rewrite ?py_index_cons_0, ?py_index_1, ?py_index_2;
          cbn [mbind result_bind]).

Lemma lxor_fixed (o d : Z) : Z.lxor o d = o → d = 0.
Proof.
  intros H. apply (f_equal (Z.lxor o)) in H.
  by rewrite <- Z.lxor_assoc, !Z.lxor_nilpotent, Z.lxor_0_l in H.
Qed.

Lemma run_protocol_verdict
    (sha256_hexdigest : string → string) (rnd : nat → nat)
    (w0 w1 : Z) (rest : list Z) :
  let a0 := SimpleMPC.randint01 rnd 0 in
  let a1 := SimpleMPC.randint01 rnd 1 in
  let a2 := Z.lxor (Z.lxor w0 a0) a1 in
  let b0 := SimpleMPC.randint01 rnd 2 in
  let b1 := SimpleMPC.randint01 rnd 3 in
  let b2 := Z.lxor (Z.lxor w1 b0) b1 in
  let final := Z.lxor (Z.lxor (Z.lxor (Z.land a0 b0) 1) (Z.land a1 b1))
                      (Z.land a2 b2) in
  SimpleMPC.run_protocol sha256_hexdigest rnd (w0 :: w1 :: rest)
  = Ok (final =? Z.land w0 w1).
Proof.
  intros a0 a1 a2 b0 b1 b2 final. unfold SimpleMPC.run_protocol.
  rewrite secret_share_dealt. cbn [dealt fmap list_fmap fst snd].
  fold a0 a1 a2 b0 b1 b2. cbn [mbind result_bind].
  change (py_range 0 SimpleMPC.n_parties) with [0; 1; 2].
  cbn [for_in]. unfold SimpleMPC.party_step. read_subscripts.
  cbn [app]. read_subscripts.
  unfold SimpleMPC.compute_and_gate. cbn [Z.eqb]. fold final.
  destruct (Z.eqb_spec final (Z.land w0 w1)) as [Heq|Hne]; cbn [negb].
  - cbn [mbind result_bind fmap list_fmap SimpleMPC.for_return for_in].
    unfold SimpleMPC.open_party. read_subscripts.
    cbn [SimpleMPC.input_shares]. read_subscripts.
    cbn [SimpleMPC.for_return].
    unfold SimpleMPC.check_commitment. read_subscripts.
    rewrite !String.eqb_refl. cbn [mbind result_bind SimpleMPC.for_return].
    unfold SimpleMPC.check_computation. read_subscripts.
    cbn [SimpleMPC.input_shares SimpleMPC.output_share].
    unfold SimpleMPC.compute_and_gate. cbn [Z.eqb].
    rewrite !Z.eqb_refl. by read_subscripts.
  - read_subscripts. unfold py_setitem. cbn [length].
    change (norm_index 3 0) with (Ok 0%nat).
    cbn [mbind result_bind insert list_insert fmap list_fmap for_in
         SimpleMPC.party_id SimpleMPC.input_shares SimpleMPC.output_share].
    unfold SimpleMPC.open_party. read_subscripts.
    cbn [SimpleMPC.input_shares]. read_subscripts.
    cbn [SimpleMPC.for_return].
    unfold SimpleMPC.check_commitment. read_subscripts.
    rewrite !String.eqb_refl. cbn [mbind result_bind SimpleMPC.for_return].
    unfold SimpleMPC.check_computation. read_subscripts.
    cbn [SimpleMPC.input_shares SimpleMPC.output_share].
    unfold SimpleMPC.compute_and_gate. cbn [Z.eqb].
    destruct (Z.eqb_spec (Z.lxor (Z.land a0 b0) 1)
                (Z.lxor (Z.lxor (Z.land a0 b0) 1)
                        (Z.lxor final (Z.land w0 w1)))) as [Hfix|Hfix]; [|done].
    symmetry in Hfix. apply lxor_fixed in Hfix.
    apply Z.lxor_eq in Hfix. done.
Qed.

Lemma run_protocol_short
    (sha256_hexdigest : string → string) (rnd : nat → nat) (witness : list Z) :
  (length witness < 2)%nat →
  SimpleMPC.run_protocol sha256_hexdigest rnd witness = Raise IndexError.
Proof.
  intros Hlen. unfold SimpleMPC.run_protocol. rewrite secret_share_dealt.
  destruct witness as [|w0 [|w1 rest]]; [done|done|cbn in Hlen; lia].
Qed.

(** X27: [run_protocol] accepts exactly when no repair was needed.  For a
    witness of at least two entries the protocol returns [True] if the
    three output shares XOR to [witness[0] & witness[1]] and [False]
    otherwise: the repair of party 0's output share in step 3 is caught by
    the recomputation in step 7.  The verdict depends on the first four
    draws and the first two witness entries only.  A witness of fewer than
    two entries raises [IndexError]. *)
Theorem run_protocol_accepts_iff_consistent
    (sha256_hexdigest : string → string) (rnd : nat → nat)
    (w0 w1 : Z) (rest : list Z) (short : list Z) :
  (length short < 2)%nat →
  let a0 := SimpleMPC.randint01 rnd 0 in
  let a1 := SimpleMPC.randint01 rnd 1 in
  let a2 := Z.lxor (Z.lxor w0 a0) a1 in
  let b0 := SimpleMPC.randint01 rnd 2 in
  let b1 := SimpleMPC.randint01 rnd 3 in
  let b2 := Z.lxor (Z.lxor w1 b0) b1 in
  let o0 := SimpleMPC.compute_and_gate 0 a0 b0 in
  let o1 := SimpleMPC.compute_and_gate 1 a1 b1 in
  let o2 := SimpleMPC.compute_and_gate 2 a2 b2 in
  SimpleMPC.run_protocol sha256_hexdigest rnd (w0 :: w1 :: rest)
  = Ok (Z.lxor (Z.lxor o0 o1) o2 =? Z.land w0 w1)
  ∧ SimpleMPC.run_protocol sha256_hexdigest rnd short = Raise IndexError.
Proof.
  intros Hshort a0 a1 a2 b0 b1 b2 o0 o1 o2. split.
  - apply run_protocol_verdict.
  - by apply run_protocol_short.
Qed.

Lemma run_protocol_accepts_iff_consistent_witness :
  SimpleMPC.run_protocol (λ s, s) (λ k, 3 * k)%nat [1; 0; 1]
  = Ok true
  ∧ SimpleMPC.run_protocol (λ s, s) (λ k, 3 * k)%nat [1] = Raise IndexError.
Proof.
  assert (length [1] < 2)%nat as Hshort by (cbn; lia).
  exact (run_protocol_accepts_iff_consistent (λ s, s) (λ k, 3 * k)%nat
           1 0 [1] [1] Hshort).
Defined.

(** X28: the honest prover of [demo] is not always accepted.  With the
    witness [[1, 1]] the run succeeds exactly when the three output shares
    XOR to 1; it fails when the first four draws are all 0 and succeeds
    when only the first of them is 1, whatever the hash function. *)
Theorem demo_depends_on_draws (sha256_hexdigest : string → string) :
  (∀ rnd,
     let a0 := SimpleMPC.randint01 rnd 0 in
     let a1 := SimpleMPC.randint01 rnd 1 in
     let b0 := SimpleMPC.randint01 rnd 2 in
     let b1 := SimpleMPC.randint01 rnd 3 in
     let o0 := SimpleMPC.compute_and_gate 0 a0 b0 in
     let o1 := SimpleMPC.compute_and_gate 1 a1 b1 in
     let o2 := SimpleMPC.compute_and_gate 2 (Z.lxor (Z.lxor 1 a0) a1)
                 (Z.lxor (Z.lxor 1 b0) b1) in
     SimpleMPC.demo sha256_hexdigest rnd = Ok (Z.lxor (Z.lxor o0 o1) o2 =? 1))
  ∧ SimpleMPC.demo sha256_hexdigest (λ _, 0%nat) = Ok false
  ∧ SimpleMPC.demo sha256_hexdigest (λ k, if k is O then 1%nat else 0%nat)
    = Ok true.
Proof.
  assert (∀ rnd, SimpleMPC.demo sha256_hexdigest rnd
                 = SimpleMPC.run_protocol sha256_hexdigest rnd [1; 1]) as Hdemo
    by done.
  split; [|split].
  - intros rnd. cbv zeta. rewrite Hdemo. apply run_protocol_verdict.
  - rewrite Hdemo, run_protocol_verdict. done.
  - rewrite Hdemo, run_protocol_verdict. done.
Qed.

(** ** bridge_sim.py: the forgery *)

Lemma factors_of_15 (p q : Z) :
  p * q = 15 → 1 < p → 1 < q → (p = 3 ∧ q = 5) ∨ (p = 5 ∧ q = 3).
Proof.
  intros Hpq Hp Hq.
  assert (p ≤ 7) by nia.
  assert (p = 2 ∨ p = 3 ∨ p = 4 ∨ p = 5 ∨ p = 6 ∨ p = 7) as Hcases by lia.
  destruct Hcases as [->|[->|[->|[->|[->| ->]]]]]; lia.
Qed.

Lemma attack_with_phi_8 (sha256_hexdigest : string → string)
    (p q : Z) (state : Bridge.legacy_state) :
  (p - 1) * (q - 1) = 8 →
  Bridge.attack_legacy_with_shor sha256_hexdigest [p; q] state
  = sig ← Bridge.legacy_sign_commit sha256_hexdigest (Bridge.st_root state);
    Bridge.chainB_verify sha256_hexdigest (Bridge.st_root state)
      (Bridge.st_proof state) "legacy" (Bridge.Atom (Bridge.AInt sig)).
Proof.
  intros Hphi. unfold Bridge.attack_legacy_with_shor, Bridge.legacy_sign_commit.
  cbn [bool_decide length orb Z.of_nat].
  rewrite bool_decide_eq_false_2 by done. cbn [orb].
  change (Z.of_nat 2 <? 2) with false. cbn iota.
  rewrite py_index_cons_0, py_index_1. cbn [mbind result_bind].
  rewrite Hphi.
  change (Bridge.py_pow_inv LegacyRsa.e 8) with (Ok 3 : result Z).
  cbn [mbind result_bind].
  destruct (Bridge.py_int16 _) as [v|]; [|done]. cbn [mbind result_bind].
  change (Bridge.py_pow (v `mod` LegacyRsa.N) 3 LegacyRsa.N)
    with (Ok (LegacyRsa.rsa_sign (v `mod` LegacyRsa.N))).
  cbn [mbind result_bind].
  by destruct (Bridge.chainB_verify _ _ _ _ _).
Qed.

(** X29: knowing the factors of [N] is enough to forge.  When the
    factoring step returns fewer than two factors the attack answers
    [False]; when it returns the two proper factors of [N = 15], in either
    order, the forged signature is the very signature [legacy_sign_commit]
    makes for the root, and the attack returns [True] exactly when the
    stored proof verifies (the digest of the root being hexadecimal). *)
Theorem attack_legacy_forges
    (sha256_hexdigest : string → string) (state : Bridge.legacy_state)
    (p q : Z) (few : list Z) :
  Bridge.hexdigest_like (sha256_hexdigest (Bridge.st_root state)) = true →
  p * q = LegacyRsa.N → 1 < p → 1 < q → (length few < 2)%nat →
  Bridge.attack_legacy_with_shor sha256_hexdigest [p; q] state
  = Ok (QSafe.verify_proof (Bridge.st_proof state))
  ∧ Bridge.attack_legacy_with_shor sha256_hexdigest [p; q] state
    = (sig ← Bridge.legacy_sign_commit sha256_hexdigest (Bridge.st_root state);
       Bridge.chainB_verify sha256_hexdigest (Bridge.st_root state)
         (Bridge.st_proof state) "legacy" (Bridge.Atom (Bridge.AInt sig)))
  ∧ Bridge.attack_legacy_with_shor sha256_hexdigest few state = Ok false.
Proof.
  intros Hhex Hpq Hp Hq Hfew.
  assert ((p - 1) * (q - 1) = 8) as Hphi.
  { destruct (factors_of_15 p q Hpq Hp Hq) as [[-> ->]|[-> ->]]; done. }
  rewrite attack_with_phi_8 by done. split; [|split; [done|]].
  - unfold Bridge.legacy_sign_commit, Bridge.chainB_verify,
      Bridge.legacy_verify_commit.
    destruct (proj1 (py_int16_hexdigest_like _) Hhex) as [v ->].
    cbn [mbind result_bind]. rewrite String.eqb_refl.
    destruct (QSafe.verify_proof _); cbn; [|done].
    change (LegacyRsa.rsa_verify ?m (LegacyRsa.rsa_sign ?m))
      with ((cube15 (cube15 m) =? m `mod` 15)).
    f_equal. apply Z.eqb_eq.
    rewrite <- (cube15_mod (v `mod` LegacyRsa.N)). apply cube15_involutive.
    by apply Z.mod_pos_bound.
  - unfold Bridge.attack_legacy_with_shor.
    destruct few as [|x [|y few]]; [done|done|cbn in Hfew; lia].
Qed.

Lemma attack_legacy_forges_witness :
  Bridge.attack_legacy_with_shor (λ _, "1f") [5; 3]
    {| Bridge.st_root := "root"; Bridge.st_proof := [(0, 2, 2)];
       Bridge.st_sig := 1 |}
  = Ok true.
Proof.
  assert (length (@nil Z) < 2)%nat as Hfew by (cbn; lia).
  exact (proj1 (attack_legacy_forges (λ _, "1f")
                  {| Bridge.st_root := "root"; Bridge.st_proof := [(0, 2, 2)];
                     Bridge.st_sig := 1 |} 5 3 []
                  eq_refl eq_refl eq_refl eq_refl Hfew)).
Defined.
